(** * The review subsystem of beads: storage operations and the review command

    A shallow embedding of
    - [internal/storage/sqlite/reviews.go] (CreateReview, GetReviewsByIssue,
      the review-session operations),
    - the tables declared by migrations 019 and 020,
    - the [bd review] and [bd review-history] commands,
    followed by the properties the specification states about them.

    SQL statements are modelled by their effect on the tables they touch.
    A [time.Time] is an instant counted from Go's zero time, so [IsZero] is
    the test against [0].  Go errors are their message strings. *)

From stdpp Require Import gmap strings list sorting.
From Stdlib Require Import ZArith Lia Ascii.

Local Open Scope string_scope.
Local Open Scope list_scope.
Local Open Scope Z_scope.

Local Set Warnings "-clear-no-such-hyp".

(** ** Data model *)

Abbreviation Time := Z.

Definition IsZero (t : Time) : bool := t =? 0.

(** [types.Review], with the fields reviews.go reads and writes. *)
Record Review := mkReview {
  ID : Z;
  IssueID : string;
  ReviewType : string;
  Outcome : string;
  Reviewer : string;
  Notes : string;
  CreatedAt : Time
}.

Definition set_CreatedAt (t : Time) (r : Review) : Review :=
  mkReview (ID r) (IssueID r) (ReviewType r) (Outcome r) (Reviewer r) (Notes r) t.

Definition set_ID (i : Z) (r : Review) : Review :=
  mkReview i (IssueID r) (ReviewType r) (Outcome r) (Reviewer r) (Notes r) (CreatedAt r).

(** [types.ReviewSession]. *)
Record ReviewSession := mkReviewSession {
  sess_ID : Z;
  RootIssueID : string;
  sess_Reviewer : string;
  StartedAt : Time;
  CompletedAt : option Time;
  Summary : string;
  ItemsReviewed : Z;
  ItemsApproved : Z;
  ItemsNeedsRevision : Z;
  ItemsDeferred : Z
}.

(** A row of table [reviews] (migration 020).  [notes] is the only
    nullable column. *)
Record ReviewRow := mkReviewRow {
  id : Z;
  issue_id : string;
  review_type : string;
  outcome : string;
  reviewer : string;
  notes : option string;
  created_at : Time
}.

(** The columns of table [issues] this code reads or writes: the title and
    the three review columns of migration 019, plus [updated_at]. *)
Record IssueRow := mkIssueRow {
  title : string;
  review_status : string;
  reviewed_by : option string;
  reviewed_at : option Time;
  updated_at : Time
}.

(** A row of table [dirty_issues]. *)
Record DirtyRow := mkDirtyRow {
  dirty_issue_id : string;
  marked_at : Time
}.

(** A row of table [events], with the columns CreateReview fills in. *)
Record EventRow := mkEventRow {
  event_issue_id : string;
  event_type : string;
  actor : string;
  comment : string
}.

(** A row of table [review_sessions] (migration 020, second part). *)
Record SessionRow := mkSessionRow {
  session_id : Z;
  root_issue_id : string;
  session_reviewer : string;
  started_at : Time;
  completed_at : option Time;
  summary : option string;
  items_reviewed : Z;
  items_approved : Z;
  items_needs_revision : Z;
  items_deferred : Z
}.

(** The database.  [reviews] and [review_sessions] are kept in rowid order;
    the two [_seq] fields are the AUTOINCREMENT counters; [foreign_keys] is
    the connection's [PRAGMA foreign_keys] setting. *)
Record Store := mkStore {
  issues : gmap string IssueRow;
  reviews : list ReviewRow;
  reviews_seq : Z;
  dirty_issues : list DirtyRow;
  events : list EventRow;
  review_sessions : list SessionRow;
  review_sessions_seq : Z;
  foreign_keys : bool
}.

Definition set_issues (v : gmap string IssueRow) (s : Store) : Store :=
  mkStore v (reviews s) (reviews_seq s) (dirty_issues s) (events s)
          (review_sessions s) (review_sessions_seq s) (foreign_keys s).

Definition set_reviews (v : list ReviewRow) (n : Z) (s : Store) : Store :=
  mkStore (issues s) v n (dirty_issues s) (events s)
          (review_sessions s) (review_sessions_seq s) (foreign_keys s).

Definition set_dirty_issues (v : list DirtyRow) (s : Store) : Store :=
  mkStore (issues s) (reviews s) (reviews_seq s) v (events s)
          (review_sessions s) (review_sessions_seq s) (foreign_keys s).

Definition set_events (v : list EventRow) (s : Store) : Store :=
  mkStore (issues s) (reviews s) (reviews_seq s) (dirty_issues s) v
          (review_sessions s) (review_sessions_seq s) (foreign_keys s).

Definition set_review_sessions (v : list SessionRow) (n : Z) (s : Store) : Store :=
  mkStore (issues s) (reviews s) (reviews_seq s) (dirty_issues s) (events s)
          v n (foreign_keys s).

(** ** Failures of the database driver

    Every call into [database/sql] can fail for reasons outside the tables
    (I/O, a busy database, a cancelled context, a constraint of a table whose
    schema is declared elsewhere).  Such failures are an input of the model:
    a [Faults] value says, for each call site, whether the driver fails there
    and with which message. *)

Inductive Site :=
  | SiteBegin | SiteInsertReview | SiteLastInsertId | SiteUpdateIssue
  | SiteMarkDirty | SiteRecordEvent | SiteCommit
  | SiteQuery | SiteNext (i : nat) | SiteScan (i : nat)
  | SiteInsertSession | SiteSessionId | SiteUpdateSession
  | SiteGetIssue.

Definition Faults := Site → option string.

Definition no_faults : Faults := λ _, None.

Global Instance Site_eq_dec : EqDecision Site.
Proof. solve_decision. Defined.

(** ** Transactions

    Inside a transaction the statements run one after another on the
    transaction's view of the database.  A failing statement leaves the view
    as the earlier statements made it: undoing them is the job of the
    rollback, not of the statement. *)

Definition Tx (A : Type) : Type := Store → Store * (string + A).

Definition tx_ret {A} (a : A) : Tx A := λ s, (s, inr a).

Definition tx_bind {A B} (m : Tx A) (k : A → Tx B) : Tx B :=
  λ s, match m s with
       | (s', inl e) => (s', inl e)
       | (s', inr a) => k a s'
       end.

Definition tx_fail {A} (e : string) : Tx A := λ s, (s, inl e).

(** [if err != nil { return fmt.Errorf("<msg>: %w", err) }] *)
Definition or_wrap {A} (msg : string) (m : Tx A) : Tx A :=
  λ s, match m s with
       | (s', inl e) => (s', inl (msg +:+ ": " +:+ e))
       | r => r
       end.

Notation "'run' m 'in' k" := (tx_bind m (λ _, k))
  (at level 10, m at level 100, k at level 200).

Definition driver (fl : Faults) (site : Site) : Tx unit :=
  match fl site with
  | Some e => tx_fail e
  | None => tx_ret tt
  end.

(** ** The SQL statements of CreateReview *)

Definition max_int64 : Z := 9223372036854775807.

(** [CHECK(outcome IN ('approved', 'needs_revision', 'deferred'))] of table
    [reviews]. *)
Definition reviews_outcome_check (o : string) : bool :=
  bool_decide (o ∈ ["approved"; "needs_revision"; "deferred"]).

(** [CHECK(review_status IN ('', 'unreviewed', 'approved', 'needs_revision',
    'deferred'))] of table [issues]. *)
Definition issues_review_status_check (o : string) : bool :=
  bool_decide (o ∈ [""; "unreviewed"; "approved"; "needs_revision"; "deferred"]).

(** [INSERT INTO reviews (issue_id, review_type, outcome, reviewer, notes,
    created_at) VALUES (?, ?, ?, ?, ?, ?)].  The statement is refused by the
    CHECK on [outcome], by the foreign key on [issue_id] when foreign keys
    are enforced, and when the AUTOINCREMENT counter is exhausted.  It
    returns the rowid of the new row. *)
Definition insert_review (fl : Faults)
    (issue type outc rev nts : string) (created : Time) : Tx Z :=
  run driver fl SiteInsertReview in
  λ tx,
    if negb (reviews_outcome_check outc) then
      (tx, inl "CHECK constraint failed: reviews")
    else if foreign_keys tx && bool_decide (issues tx !! issue = None) then
      (tx, inl "FOREIGN KEY constraint failed")
    else if max_int64 <=? reviews_seq tx then
      (tx, inl "database or disk is full")
    else
      let rowid := reviews_seq tx + 1 in
      (set_reviews
         (reviews tx ++ [mkReviewRow rowid issue type outc rev (Some nts) created])
         rowid tx,
       inr rowid).

(** [result.LastInsertId()] *)
Definition LastInsertId (fl : Faults) (site : Site) (rowid : Z) : Tx Z :=
  run driver fl site in tx_ret rowid.

(** [UPDATE issues SET review_status = ?, reviewed_by = ?, reviewed_at = ?,
    updated_at = ? WHERE id = ?].  No row matches an unknown id, which is
    not an error. *)
Definition update_issue_review (fl : Faults)
    (status by_ : string) (at_ upd : Time) (issue : string) : Tx unit :=
  run driver fl SiteUpdateIssue in
  λ tx,
    match issues tx !! issue with
    | None => (tx, inr tt)
    | Some row =>
        if negb (issues_review_status_check status) then
          (tx, inl "CHECK constraint failed: issues")
        else
          (set_issues
             (<[issue := mkIssueRow (title row) status (Some by_) (Some at_) upd]>
                (issues tx))
             tx,
           inr tt)
    end.

(** [INSERT INTO dirty_issues (issue_id, marked_at) VALUES (?, ?)
     ON CONFLICT (issue_id) DO UPDATE SET marked_at = excluded.marked_at]:
    the row of the issue is rewritten in place if there is one, and a new
    row is added at the end otherwise. *)
Fixpoint upsert_dirty (issue : string) (t : Time) (rows : list DirtyRow)
    : list DirtyRow :=
  match rows with
  | [] => [mkDirtyRow issue t]
  | row :: rest =>
      if decide (dirty_issue_id row = issue)
      then mkDirtyRow issue t :: rest
      else row :: upsert_dirty issue t rest
  end.

Definition mark_dirty (fl : Faults) (issue : string) (t : Time) : Tx unit :=
  run driver fl SiteMarkDirty in
  λ tx, (set_dirty_issues (upsert_dirty issue t (dirty_issues tx)) tx, inr tt).

(** [INSERT INTO events (issue_id, event_type, actor, comment)
     VALUES (?, ?, ?, ?)] *)
Definition insert_event (fl : Faults) (issue type act cmt : string) : Tx unit :=
  run driver fl SiteRecordEvent in
  λ tx, (set_events (events tx ++ [mkEventRow issue type act cmt]) tx, inr tt).

(** ** withTx *)

(** Modelled from the spec: [withTx], the helper of the sqlite package that
    runs a function inside one store transaction, is not among the files
    embedded here.  Following section 4.1 and section 7 of the specification (a
    multi-table write executes as one transaction, and a failure at any step
    rolls back completely), it begins a transaction, runs [fn] on it, rolls
    back when [fn] fails, and commits otherwise; when the transaction cannot
    begin or the commit fails the database is left as it was.  [fn] is a
    closure: [M] is the memory it captures and writes to, which no rollback
    restores. *)
Definition withTx {M : Type} (fl : Faults)
    (fn : Store → M → Store * M * option string) (s : Store) (mem : M)
    : Store * M * option string :=
  match fl SiteBegin with
  | Some e => (s, mem, Some ("failed to begin transaction: " +:+ e))
  | None =>
      match fn s mem with
      | (_, mem', Some e) => (s, mem', Some e)
      | (tx, mem', None) =>
          match fl SiteCommit with
          | Some e => (s, mem', Some ("failed to commit transaction: " +:+ e))
          | None => (tx, mem', None)
          end
      end
  end.

(** ** CreateReview *)

(** The function CreateReview hands to [withTx].  [now] is the value of
    [time.Now()]; [review] is the caller's struct, written through the
    pointer. *)
Definition CreateReview_tx (fl : Faults) (now : Time) (actor_ : string)
    (tx : Store) (review : Review) : Store * Review * option string :=
  (* Set timestamp if not provided *)
  let review :=
    if IsZero (CreatedAt review) then set_CreatedAt now review else review in
  (* Insert review record *)
  match or_wrap "failed to insert review"
          (insert_review fl (IssueID review) (ReviewType review)
             (Outcome review) (Reviewer review) (Notes review)
             (CreatedAt review)) tx with
  | (tx, inl err) => (tx, review, Some err)
  | (tx, inr result) =>
  (* Get the inserted ID *)
  match or_wrap "failed to get review id"
          (LastInsertId fl SiteLastInsertId result) tx with
  | (tx, inl err) => (tx, review, Some err)
  | (tx, inr rowid) =>
  let review := set_ID rowid review in
  (* Update the issue's review fields *)
  match or_wrap "failed to update issue review status"
          (update_issue_review fl (Outcome review) (Reviewer review) now now
             (IssueID review)) tx with
  | (tx, inl err) => (tx, review, Some err)
  | (tx, inr _) =>
  (* Mark issue as dirty for incremental export *)
  match or_wrap "failed to mark issue dirty"
          (mark_dirty fl (IssueID review) now) tx with
  | (tx, inl err) => (tx, review, Some err)
  | (tx, inr _) =>
  (* Record event *)
  match or_wrap "failed to record event"
          (insert_event fl (IssueID review) "reviewed" actor_
             ("Review: " +:+ Outcome review +:+ " by " +:+ Reviewer review))
          tx with
  | (tx, inl err) => (tx, review, Some err)
  | (tx, inr _) => (tx, review, None)
  end end end end end.

Definition CreateReview (fl : Faults) (now : Time) (review : Review)
    (actor_ : string) (s : Store) : Store * Review * option string :=
  withTx fl (CreateReview_tx fl now actor_) s review.

(** ** GetReviewsByIssue *)

(** [ORDER BY created_at ASC], as an insertion sort over the rows in rowid
    order; rows with equal [created_at] keep their rowid order. *)
Fixpoint insert_by_created_at (r : ReviewRow) (l : list ReviewRow)
    : list ReviewRow :=
  match l with
  | [] => [r]
  | x :: l' =>
      if created_at r <=? created_at x then r :: l
      else x :: insert_by_created_at r l'
  end.

Definition order_by_created_at (l : list ReviewRow) : list ReviewRow :=
  foldr insert_by_created_at [] l.

(** [SELECT id, issue_id, review_type, outcome, reviewer, notes, created_at
     FROM reviews WHERE issue_id = ? ORDER BY created_at ASC] *)
Definition select_reviews_by_issue (s : Store) (issueID : string)
    : list ReviewRow :=
  order_by_created_at (filter (λ r, issue_id r = issueID) (reviews s)).

(** [rows.Scan] into a [types.Review]; a NULL [notes] leaves [Notes] empty. *)
Definition scan_review (row : ReviewRow) : Review :=
  mkReview (id row) (issue_id row) (review_type row) (outcome row)
           (reviewer row) (default "" (notes row)) (created_at row).

(** The [for rows.Next()] loop.  When [rows.Next] fails the loop ends and
    [rows.Err()] reports the failure next to the reviews read so far; when
    [rows.Scan] fails the function returns nil and the wrapped error. *)
Fixpoint scan_reviews (fl : Faults) (i : nat) (rows : list ReviewRow)
    (acc : list Review) : list Review * option string :=
  match fl (SiteNext i) with
  | Some e => (acc, Some e)
  | None =>
      match rows with
      | [] => (acc, None)
      | row :: rest =>
          match fl (SiteScan i) with
          | Some e => ([], Some ("failed to scan review: " +:+ e))
          | None => scan_reviews fl (S i) rest (acc ++ [scan_review row])
          end
      end
  end.

Definition GetReviewsByIssue (fl : Faults) (s : Store) (issueID : string)
    : list Review * option string :=
  match fl SiteQuery with
  | Some e => ([], Some ("failed to query reviews: " +:+ e))
  | None => scan_reviews fl 0 (select_reviews_by_issue s issueID) []
  end.

(** ** Review sessions *)

Definition scan_session (row : SessionRow) : ReviewSession :=
  mkReviewSession (session_id row) (root_issue_id row) (session_reviewer row)
    (started_at row) (completed_at row) (default "" (summary row))
    (items_reviewed row) (items_approved row) (items_needs_revision row)
    (items_deferred row).

(** CreateReviewSession runs its INSERT outside any transaction, so the new
    row stays when [LastInsertId] fails afterwards. *)
Definition CreateReviewSession (fl : Faults) (now : Time)
    (session : ReviewSession) (s : Store)
    : Store * ReviewSession * option string :=
  let session :=
    if IsZero (StartedAt session) then
      mkReviewSession (sess_ID session) (RootIssueID session)
        (sess_Reviewer session) now (CompletedAt session) (Summary session)
        (ItemsReviewed session) (ItemsApproved session)
        (ItemsNeedsRevision session) (ItemsDeferred session)
    else session in
  let failed e := (s, session, Some ("failed to create review session: " +:+ e)) in
  match fl SiteInsertSession with
  | Some e => failed e
  | None =>
      if foreign_keys s && bool_decide (issues s !! RootIssueID session = None)
      then failed "FOREIGN KEY constraint failed"
      else if max_int64 <=? review_sessions_seq s
      then failed "database or disk is full"
      else
        let rowid := review_sessions_seq s + 1 in
        let s' :=
          set_review_sessions
            (review_sessions s ++
               [mkSessionRow rowid (RootIssueID session) (sess_Reviewer session)
                  (StartedAt session) None (Some (Summary session)) 0 0 0 0])
            rowid s in
        match fl SiteSessionId with
        | Some e => (s', session, Some ("failed to get session id: " +:+ e))
        | None =>
            (s',
             mkReviewSession rowid (RootIssueID session) (sess_Reviewer session)
               (StartedAt session) (CompletedAt session) (Summary session)
               (ItemsReviewed session) (ItemsApproved session)
               (ItemsNeedsRevision session) (ItemsDeferred session),
             None)
        end
  end.

(** [UPDATE review_sessions SET completed_at = ?, summary = ?,
     items_reviewed = ?, items_approved = ?, items_needs_revision = ?,
     items_deferred = ? WHERE id = ?] *)
Definition update_session_row (session : ReviewSession) (row : SessionRow)
    : SessionRow :=
  if decide (session_id row = sess_ID session) then
    mkSessionRow (session_id row) (root_issue_id row) (session_reviewer row)
      (started_at row) (CompletedAt session) (Some (Summary session))
      (ItemsReviewed session) (ItemsApproved session)
      (ItemsNeedsRevision session) (ItemsDeferred session)
  else row.

Definition UpdateReviewSession (fl : Faults) (session : ReviewSession)
    (s : Store) : Store * option string :=
  match fl SiteUpdateSession with
  | Some e => (s, Some ("failed to update review session: " +:+ e))
  | None =>
      (set_review_sessions
         (update_session_row session <$> review_sessions s)
         (review_sessions_seq s) s,
       None)
  end.

(** GetReviewSession: [QueryRowContext(...).Scan(...)] reports a missing row
    as [sql.ErrNoRows], which the function turns into [nil, nil]; every
    other failure of the query or of the scan is wrapped and returned. *)
Definition GetReviewSession (fl : Faults) (s : Store) (id_ : Z)
    : option ReviewSession * option string :=
  match fl SiteQuery with
  | Some e => (None, Some ("failed to get review session: " +:+ e))
  | None =>
      match list_find (λ row, session_id row = id_) (review_sessions s) with
      | None => (None, None)
      | Some (_, row) =>
          match fl (SiteScan 0) with
          | Some e => (None, Some ("failed to get review session: " +:+ e))
          | None => (Some (scan_session row), None)
          end
      end
  end.

(** ** The commands *)

(** Modelled from the spec: the constants [types.ReviewOutcomeApproved],
    [types.ReviewOutcomeNeedsRevision] and [types.ReviewOutcomeDeferred] are
    declared in package [types], which is not among the files embedded
    here; section 3 of the specification gives the outcomes as approved,
    needs_revision and deferred, which are also the values the CHECK
    constraint of table [reviews] admits. *)
Definition ReviewOutcomeApproved : string := "approved".
Definition ReviewOutcomeNeedsRevision : string := "needs_revision".
Definition ReviewOutcomeDeferred : string := "deferred".

(** Modelled from the spec: the method [IsValid] of [types.ReviewType] is
    declared in package [types], which is not among the files embedded
    here; section 3 of the specification lets the type of a ReviewRecord
    range over plan, implementation, security and custom. *)
Definition ReviewType_IsValid (rt : string) : bool :=
  bool_decide (rt ∈ ["plan"; "implementation"; "security"; "custom"]).

(** The fields of [types.Issue] the commands read. *)
Record Issue := mkIssue {
  Title : string;
  ReviewStatus : string;
  ReviewedBy : string;
  ReviewedAt : option Time
}.

(** Modelled from the spec: [GetIssue] of the storage interface is not
    among the files embedded here; it is the point lookup of section 4.1,
    returning nil without an error for an unknown identity (the commands
    test the result against nil after testing the error). *)
Definition GetIssue (fl : Faults) (s : Store) (issueID : string)
    : option Issue * option string :=
  match fl SiteGetIssue with
  | Some e => (None, Some e)
  | None =>
      ((λ row, mkIssue (title row) (review_status row)
                 (default "" (reviewed_by row)) (reviewed_at row))
         <$> issues s !! issueID,
       None)
  end.

(** The flags as given on the command line: [None] for a flag that was left
    out. *)
Record Flags := mkFlags {
  flag_approve : option bool;
  flag_revise : option bool;
  flag_defer : option bool;
  flag_reviewer : option string;
  flag_notes : option string;
  flag_type : option string;
  flag_json : option bool
}.

(** The defaults registered by [init]. *)
Definition default_approve : bool := false.
Definition default_revise : bool := false.
Definition default_defer : bool := false.
Definition default_reviewer : string := "".
Definition default_notes : string := "".
Definition default_type : string := "plan".
Definition default_json : bool := false.

(** [cmd.Flags().GetBool] and [cmd.Flags().GetString]: the value given, or
    the registered default. *)
Definition GetFlag {A} (given : option A) (registered : A) : A :=
  default registered given.

(** The calls a command makes on the store, in order. *)
Inductive StoreCall :=
  | CallGetIssue (issueID : string)
  | CallCreateReview (review : Review) (actor_ : string)
  | CallGetReviewsByIssue (issueID : string).

(** What running a command leaves behind: the message of the [FatalError]
    that ended it, if any; what it printed; the calls it made on the store;
    whether it asked for a flush; and the database afterwards. *)
Record Run := mkRun {
  fatal_error : option string;
  stdout : list string;
  store_calls : list StoreCall;
  flush_scheduled : bool;
  final_store : Store
}.

(** Modelled from the spec: [FatalError] is not among the files embedded
    here; by section 7 of the specification a validation error rejects the
    call and is surfaced to the caller verbatim, so it ends the command with
    its message and nothing after it runs. *)
Definition FatalError (msg : string) (calls : list StoreCall) (s : Store) : Run :=
  mkRun (Some msg) [] calls false s.

Definition nl : string := String "010"%char "".

(** [formatReviewStatus] *)
Definition formatReviewStatus (status : string) : string :=
  if decide (status = "") then "unreviewed" else status.

(** The count of outcome flags: [outcomeCount], incremented once per flag
    that is set. *)
Definition count_outcomes (approve revise deferReview : bool) : nat :=
  let outcomeCount := 0%nat in
  let outcomeCount := if approve then S outcomeCount else outcomeCount in
  let outcomeCount := if revise then S outcomeCount else outcomeCount in
  let outcomeCount := if deferReview then S outcomeCount else outcomeCount in
  outcomeCount.

(** The [switch] that determines the outcome; the string stays empty when
    no case applies. *)
Definition determine_outcome (approve revise deferReview : bool) : string :=
  if approve then ReviewOutcomeApproved
  else if revise then ReviewOutcomeNeedsRevision
  else if deferReview then ReviewOutcomeDeferred
  else "".

(** What the commands take from the process and from libraries.
    - Process-wide state: the actor name, whether the store is the SQLite
      one, the global [jsonOutput], and the verdict of [CheckReadonly]
      (declared elsewhere) for a command name: the message it ends the
      command with, if it does.
    - Library functions: [%q], [Time.Format("2006-01-02 15:04")], the JSON
      printer, the colour function, and the rendered check mark.
    - [IsValid] of [types.ReviewType]. *)
Record Env := mkEnv {
  actor_name : string;
  store_is_sqlite : bool;
  CheckReadonly : string → option string;
  global_jsonOutput : bool;
  quote : string → string;
  format_minute : Time → string;
  outputJSON : list (string * string) → string;
  reviews_json : list Review → string;
  cyan : string → string;
  pass_mark : string;
  IsValid : string → bool
}.

Section Commands.

Variable env : Env.

(** The [Run] function of [reviewCmd]; [issueID] is [args[0]]. *)
Definition reviewCmd (fl : Faults) (now : Time) (issueID : string)
    (flags : Flags) (s : Store) : Run :=
  match CheckReadonly env "review" with
  | Some msg => FatalError msg [] s
  | None =>
  (* Get flags *)
  let approve := GetFlag (flag_approve flags) default_approve in
  let revise := GetFlag (flag_revise flags) default_revise in
  let deferReview := GetFlag (flag_defer flags) default_defer in
  let reviewer_ := GetFlag (flag_reviewer flags) default_reviewer in
  let notes_ := GetFlag (flag_notes flags) default_notes in
  let reviewType := GetFlag (flag_type flags) default_type in
  let jsonOutput := GetFlag (flag_json flags) default_json in
  (* Validate that exactly one outcome flag is set *)
  let outcomeCount := count_outcomes approve revise deferReview in
  if bool_decide (outcomeCount = 0%nat) then
    FatalError "must specify one of --approve, --revise, or --defer" [] s
  else if bool_decide (1 < outcomeCount)%nat then
    FatalError "can only specify one of --approve, --revise, or --defer" [] s
  (* Validate reviewer is provided *)
  else if bool_decide (reviewer_ = "") then
    FatalError "--reviewer is required" [] s
  else
  (* Determine outcome *)
  let outcome_ := determine_outcome approve revise deferReview in
  (* Validate review type *)
  let rt := reviewType in
  if negb (IsValid env rt) then
    FatalError ("invalid review type " +:+ quote env reviewType +:+
                " (valid: plan, implementation, security)") [] s
  else
  (* Check if issue exists *)
  match GetIssue fl s issueID with
  | (_, Some err) =>
      FatalError ("failed to get issue: " +:+ err) [CallGetIssue issueID] s
  | (None, None) =>
      FatalError ("issue " +:+ issueID +:+ " not found")
                 [CallGetIssue issueID] s
  | (Some issue, None) =>
  (* Create the review record *)
  let review := mkReview 0 issueID rt outcome_ reviewer_ notes_ 0 in
  (* Use SQLite store for review creation *)
  if negb (store_is_sqlite env) then
    FatalError
      "review command requires SQLite storage (not supported in --no-db mode)"
      [CallGetIssue issueID] s
  else
  let calls := [CallGetIssue issueID; CallCreateReview review (actor_name env)] in
  match CreateReview fl now review (actor_name env) s with
  | (s', _, Some err) =>
      FatalError ("failed to create review: " +:+ err) calls s'
  | (s', _, None) =>
      (* Schedule auto-flush, then report *)
      mkRun None
        (if jsonOutput then
           [outputJSON env [("issue_id", issueID); ("review_status", outcome_);
                        ("reviewed_by", reviewer_); ("review_type", rt);
                        ("notes", notes_)]]
         else
           [pass_mark env +:+ " Reviewed issue: " +:+ issueID +:+ nl;
            "  Title: " +:+ Title issue +:+ nl;
            "  Status: " +:+ formatReviewStatus (ReviewStatus issue) +:+
              " -> " +:+ outcome_ +:+ nl;
            "  Reviewer: " +:+ reviewer_ +:+ nl;
            "  Type: " +:+ rt +:+ nl] ++
           (if decide (notes_ = "") then []
            else ["  Notes: " +:+ notes_ +:+ nl]))
        calls true s'
  end
  end
  end.

(** One line of the review history. *)
Definition history_line (r : Review) : string :=
  let notes_ :=
    if decide (Notes r = "") then "" else " | " +:+ quote env (Notes r) in
  "  " +:+ format_minute env (CreatedAt r) +:+ " | " +:+ Reviewer r +:+ " | " +:+
  ReviewType r +:+ " | " +:+ Outcome r +:+ notes_ +:+ nl.

(** The [Run] function of [reviewHistoryCmd]; [issueID] is [args[0]]. *)
Definition reviewHistoryCmd (fl : Faults) (issueID : string) (s : Store)
    : Run :=
  (* Check if issue exists *)
  match GetIssue fl s issueID with
  | (_, Some err) =>
      FatalError ("failed to get issue: " +:+ err) [CallGetIssue issueID] s
  | (None, None) =>
      FatalError ("issue " +:+ issueID +:+ " not found")
                 [CallGetIssue issueID] s
  | (Some issue, None) =>
  (* Get SQLite store for review queries *)
  if negb (store_is_sqlite env) then
    FatalError
      "review-history requires SQLite storage (not supported in --no-db mode)"
      [CallGetIssue issueID] s
  else
  let calls := [CallGetIssue issueID; CallGetReviewsByIssue issueID] in
  (* Get review history *)
  match GetReviewsByIssue fl s issueID with
  | (_, Some err) =>
      FatalError ("failed to get review history: " +:+ err) calls s
  | (reviews_, None) =>
      if global_jsonOutput env then
        mkRun None
          [outputJSON env [("issue_id", issueID); ("title", Title issue);
                       ("reviews", reviews_json env reviews_)]]
          calls false s
      else
        mkRun None
          ([nl +:+ cyan env issueID +:+ ": " +:+ Title issue +:+ nl;
            "Review History:" +:+ nl] ++
           (if bool_decide (List.length reviews_ = 0%nat)
            then ["  (no reviews yet)" +:+ nl]
            else history_line <$> reviews_) ++
           (* Show current review status *)
           (if decide (ReviewStatus issue = "") then []
            else
              ["" +:+ nl +:+ "Current status: " +:+ ReviewStatus issue] ++
              (if decide (ReviewedBy issue = "") then []
               else [" by " +:+ ReviewedBy issue]) ++
              match ReviewedAt issue with
              | None => []
              | Some t => [" on " +:+ format_minute env t]
              end ++
              [nl]) ++
           [nl])
          calls false s
  end
  end.

End Commands.


(** The call sites of the driver inside CreateReview. *)
Definition tx_sites : list Site :=
  [SiteBegin; SiteInsertReview; SiteLastInsertId; SiteUpdateIssue;
   SiteMarkDirty; SiteRecordEvent; SiteCommit].

(** ** Sequences of calls *)

(** One call of CreateReview: the driver failures it meets, the clock, and
    its arguments. *)
Record Call := mkCall {
  call_faults : Faults;
  call_now : Time;
  call_review : Review;
  call_actor : string
}.

(** A sequence of CreateReview calls that all return without error, and the
    database they leave; [None] when one of them fails. *)
Fixpoint CreateReview_seq (calls : list Call) (s : Store) : option Store :=
  match calls with
  | [] => Some s
  | c :: rest =>
      match CreateReview (call_faults c) (call_now c) (call_review c)
              (call_actor c) s with
      | (s', _, None) => CreateReview_seq rest s'
      | (_, _, Some _) => None
      end
  end.

(** One run of [bd review] on an issue. *)
Record Invocation := mkInvocation {
  inv_faults : Faults;
  inv_now : Time;
  inv_flags : Flags
}.

(** Runs of [bd review] on the same issue, one after the other, each on the
    database the run before it left. *)
Fixpoint review_runs (env : Env) (issueID : string) (invs : list Invocation)
    (s : Store) : list Run :=
  match invs with
  | [] => []
  | i :: rest =>
      let r := reviewCmd env (inv_faults i) (inv_now i) issueID (inv_flags i) s in
      r :: review_runs env issueID rest (final_store r)
  end.

(** The database after a list of runs that started from [s]. *)
Definition store_after (s : Store) (runs : list Run) : Store :=
  default s (final_store <$> last runs).

(** The operations of reviews.go that write to the database. *)
Inductive StorageOp :=
  | OpCreateReview (now : Time) (review : Review) (actor_ : string)
  | OpCreateReviewSession (now : Time) (session : ReviewSession)
  | OpUpdateReviewSession (session : ReviewSession).

Definition apply_op (fl : Faults) (op : StorageOp) (s : Store) : Store :=
  match op with
  | OpCreateReview now review actor_ => (CreateReview fl now review actor_ s).1.1
  | OpCreateReviewSession now session => (CreateReviewSession fl now session s).1.1
  | OpUpdateReviewSession session => (UpdateReviewSession fl session s).1
  end.

(** The rows of [dirty_issues] for an issue. *)
Definition dirty_rows (s : Store) (issue : string) : list DirtyRow :=
  filter (λ row, dirty_issue_id row = issue) (dirty_issues s).

(** [created_at] never decreases along a list of rows. *)
Definition chronological : list ReviewRow → Prop :=
  Sorted (λ a b, created_at a ≤ created_at b).


(** ** Sample data *)

(** A driver that fails at one site only. *)
Definition fail_at (site : Site) : Faults :=
  λ x, if decide (x = site) then Some "disk I/O error" else None.

(** A database with one issue, [bd-1], never reviewed. *)
Definition sample_store : Store :=
  mkStore {[ "bd-1" := mkIssueRow "Add login" "unreviewed" None None 100 ]}
          [] 0 [] [] [] 0 true.

Definition sample_review : Review :=
  mkReview 0 "bd-1" "plan" "approved" "alice" "" 0.

(** The same review, dated by the caller. *)
Definition dated_review : Review :=
  mkReview 0 "bd-1" "plan" "approved" "alice" "" 5.

Definition revise_review : Review :=
  mkReview 0 "bd-1" "plan" "needs_revision" "carol" "tests missing" 0.

(** Two calls for [bd-1], at times 9 and 12. *)
Definition sample_call1 : Call := mkCall no_faults 9 sample_review "bob".
Definition sample_call2 : Call := mkCall no_faults 12 revise_review "bob".

Definition sample_twice : Store :=
  default sample_store (CreateReview_seq [sample_call1; sample_call2] sample_store).

(** An environment for the commands: SQLite store, writes allowed, plain
    output, and the review types of [ReviewType_IsValid]. *)
Definition sample_env : Env :=
  mkEnv "bob" true (λ _, None) false (λ x, x) (λ _, "2025-01-01 00:00")
        (λ _, "{}") (λ _, "[]") (λ x, x) "ok" ReviewType_IsValid.

(** ** What a run of [bd review] asks for *)

(** The values the command reads from its flags. *)
Definition asked_count (flags : Flags) : nat :=
  count_outcomes (GetFlag (flag_approve flags) default_approve)
                 (GetFlag (flag_revise flags) default_revise)
                 (GetFlag (flag_defer flags) default_defer).

Definition asked_outcome (flags : Flags) : string :=
  determine_outcome (GetFlag (flag_approve flags) default_approve)
                    (GetFlag (flag_revise flags) default_revise)
                    (GetFlag (flag_defer flags) default_defer).

Definition asked_reviewer (flags : Flags) : string :=
  GetFlag (flag_reviewer flags) default_reviewer.

Definition asked_notes (flags : Flags) : string :=
  GetFlag (flag_notes flags) default_notes.

Definition asked_type (flags : Flags) : string :=
  GetFlag (flag_type flags) default_type.

(** The [types.Review] the command builds from its flags. *)
Definition asked_review (issueID : string) (flags : Flags) : Review :=
  mkReview 0 issueID (asked_type flags) (asked_outcome flags)
           (asked_reviewer flags) (asked_notes flags) 0.

(** The flags pass the validation of the command. *)
Definition valid_flags (env : Env) (flags : Flags) : Prop :=
  asked_count flags = 1%nat ∧ asked_reviewer flags ≠ "" ∧
  IsValid env (asked_type flags) = true.

(** The four messages of the validation. *)
Definition validation_messages (env : Env) (flags : Flags) : list string :=
  ["must specify one of --approve, --revise, or --defer";
   "can only specify one of --approve, --revise, or --defer";
   "--reviewer is required";
   "invalid review type " +:+ quote env (asked_type flags) +:+
     " (valid: plan, implementation, security)"].

(** The rows a list of accepted runs adds to [reviews], numbered from the
    counter [n] on. *)
Fixpoint asked_rows (n : Z) (issueID : string) (invs : list Invocation)
    : list ReviewRow :=
  match invs with
  | [] => []
  | i :: rest =>
      mkReviewRow (n + 1) issueID (asked_type (inv_flags i))
        (asked_outcome (inv_flags i)) (asked_reviewer (inv_flags i))
        (Some (asked_notes (inv_flags i))) (inv_now i)
      :: asked_rows (n + 1) issueID rest
  end.

(** [--approve --reviewer alice], then [--revise --reviewer carol]. *)
Definition approve_flags : Flags :=
  mkFlags (Some true) None None (Some "alice") None None None.

Definition revise_flags : Flags :=
  mkFlags None (Some true) None (Some "carol") (Some "tests missing") None None.

Definition approve_then_revise : list Invocation :=
  [mkInvocation no_faults 9 approve_flags; mkInvocation no_faults 12 revise_flags].

(** [--reviewer alice] with no outcome flag. *)
Definition no_outcome_flags : Flags :=
  mkFlags None None None (Some "alice") None None None.

(** [--approve --reviewer alice --type security] *)
Definition security_flags : Flags :=
  mkFlags (Some true) None None (Some "alice") None (Some "security") None.

(** The review types of section 3 of the specification. *)
Definition review_types : list string :=
  ["plan"; "implementation"; "security"; "custom"].

(** A run that the command accepts: valid flags and no driver failure. *)
Definition valid_invocation (env : Env) (inv : Invocation) : Prop :=
  (∀ site, inv_faults inv site = None) ∧ valid_flags env (inv_flags inv).

(** * The rest of reviews.go *)

(** ** GetReviewHistory *)

(** [ORDER BY created_at DESC], as an insertion sort over the rows in rowid
    order.  SQLite leaves the order of rows with equal [created_at] open;
    here they keep their rowid order. *)
Fixpoint insert_by_created_at_desc (r : ReviewRow) (l : list ReviewRow)
    : list ReviewRow :=
  match l with
  | [] => [r]
  | x :: l' =>
      if created_at x <=? created_at r then r :: l
      else x :: insert_by_created_at_desc r l'
  end.

Definition order_by_created_at_desc (l : list ReviewRow) : list ReviewRow :=
  foldr insert_by_created_at_desc [] l.

(** [LIMIT ?]: a negative limit is no limit in SQLite. *)
Definition sql_limit {A} (limit : Z) (l : list A) : list A :=
  if limit <? 0 then l else take (Z.to_nat limit) l.

(** The two SELECT statements of GetReviewHistory: with
    [WHERE reviewer = ?] when a reviewer is given, over all reviews
    otherwise. *)
Definition select_review_history (s : Store) (reviewer_ : string) (limit : Z)
    : list ReviewRow :=
  if decide (reviewer_ ≠ "") then
    sql_limit limit
      (order_by_created_at_desc (filter (λ r, reviewer r = reviewer_) (reviews s)))
  else
    sql_limit limit (order_by_created_at_desc (reviews s)).

Definition GetReviewHistory (fl : Faults) (s : Store) (reviewer_ : string)
    (limit : Z) : list Review * option string :=
  match fl SiteQuery with
  | Some e => ([], Some ("failed to query review history: " +:+ e))
  | None => scan_reviews fl 0 (select_review_history s reviewer_ limit) []
  end.

(** ** GetReviewSessionsByReviewer *)

(** [ORDER BY started_at DESC] *)
Fixpoint insert_by_started_at_desc (r : SessionRow) (l : list SessionRow)
    : list SessionRow :=
  match l with
  | [] => [r]
  | x :: l' =>
      if started_at x <=? started_at r then r :: l
      else x :: insert_by_started_at_desc r l'
  end.

Definition order_by_started_at_desc (l : list SessionRow) : list SessionRow :=
  foldr insert_by_started_at_desc [] l.

(** [SELECT ... FROM review_sessions WHERE reviewer = ?
     ORDER BY started_at DESC LIMIT ?] *)
Definition select_sessions_by_reviewer (s : Store) (reviewer_ : string)
    (limit : Z) : list SessionRow :=
  sql_limit limit
    (order_by_started_at_desc
       (filter (λ r, session_reviewer r = reviewer_) (review_sessions s))).

(** The [for rows.Next()] loop over sessions, as for reviews. *)
Fixpoint scan_sessions (fl : Faults) (i : nat) (rows : list SessionRow)
    (acc : list ReviewSession) : list ReviewSession * option string :=
  match fl (SiteNext i) with
  | Some e => (acc, Some e)
  | None =>
      match rows with
      | [] => (acc, None)
      | row :: rest =>
          match fl (SiteScan i) with
          | Some e => ([], Some ("failed to scan review session: " +:+ e))
          | None => scan_sessions fl (S i) rest (acc ++ [scan_session row])
          end
      end
  end.

Definition GetReviewSessionsByReviewer (fl : Faults) (s : Store)
    (reviewer_ : string) (limit : Z) : list ReviewSession * option string :=
  match fl SiteQuery with
  | Some e => ([], Some ("failed to query review sessions: " +:+ e))
  | None => scan_sessions fl 0 (select_sessions_by_reviewer s reviewer_ limit) []
  end.

(** ** Row identifiers *)

(** The rowids of a table are distinct and not above its AUTOINCREMENT
    counter: what holds of a table that only INSERTs without an explicit id
    have written to. *)
Definition reviews_ids_ok (s : Store) : Prop :=
  Forall (λ r, id r ≤ reviews_seq s) (reviews s) ∧ NoDup (id <$> reviews s).

Definition sessions_ids_ok (s : Store) : Prop :=
  Forall (λ r, session_id r ≤ review_sessions_seq s) (review_sessions s) ∧
  NoDup (session_id <$> review_sessions s).

(** The session GetReviewSession reads back for a session that
    CreateReviewSession stored: the INSERT names neither the completion
    time nor the counters, so they come back as NULL and 0. *)
Definition as_created (session : ReviewSession) : ReviewSession :=
  mkReviewSession (sess_ID session) (RootIssueID session) (sess_Reviewer session)
    (StartedAt session) None (Summary session) 0 0 0 0.

(** The prefixes of the errors of CreateReview, by the call site that
    failed. *)
Definition CreateReview_error_prefix (site : Site) : string :=
  match site with
  | SiteInsertReview => "failed to insert review: "
  | SiteLastInsertId => "failed to get review id: "
  | SiteUpdateIssue => "failed to update issue review status: "
  | SiteMarkDirty => "failed to mark issue dirty: "
  | SiteRecordEvent => "failed to record event: "
  | _ => ""
  end.

(** The call sites before a given one, in the order CreateReview reaches
    them. *)
Definition sites_before (site : Site) : list Site :=
  match site with
  | SiteInsertReview => [SiteBegin]
  | SiteLastInsertId => [SiteBegin; SiteInsertReview]
  | SiteUpdateIssue => [SiteBegin; SiteInsertReview; SiteLastInsertId]
  | SiteMarkDirty =>
      [SiteBegin; SiteInsertReview; SiteLastInsertId; SiteUpdateIssue]
  | SiteRecordEvent =>
      [SiteBegin; SiteInsertReview; SiteLastInsertId; SiteUpdateIssue;
       SiteMarkDirty]
  | _ => []
  end.

Definition statement_sites : list Site :=
  [SiteInsertReview; SiteLastInsertId; SiteUpdateIssue; SiteMarkDirty;
   SiteRecordEvent].

(** A database like [sample_store] that does not enforce foreign keys, and
    reviews for an issue it does not hold and with an outcome the table
    does not admit. *)
Definition lax_store : Store :=
  mkStore {[ "bd-1" := mkIssueRow "Add login" "unreviewed" None None 100 ]}
          [] 0 [] [] [] 0 false.

Definition stray_review : Review :=
  mkReview 0 "bd-404" "plan" "approved" "alice" "" 0.

Definition odd_review : Review :=
  mkReview 0 "bd-1" "plan" "rejected" "alice" "" 0.

(** A session for [bd-1], as a caller starts it, and its completion. *)
Definition sample_session : ReviewSession :=
  mkReviewSession 0 "bd-1" "alice" 0 None "first pass" 0 0 0 0.

Definition completed_session : ReviewSession :=
  mkReviewSession 1 "bd-9" "mallory" 77 (Some 20) "done" 3 2 1 0.

Definition session_store : Store :=
  (CreateReviewSession no_faults 9 sample_session sample_store).1.1.

(** The rows the WHERE clause of GetReviewHistory lets through. *)
Definition history_candidates (s : Store) (reviewer_ : string) : list ReviewRow :=
  if decide (reviewer_ ≠ "") then filter (λ r, reviewer r = reviewer_) (reviews s)
  else reviews s.

(** The rows the WHERE clause of GetReviewSessionsByReviewer lets through. *)
Definition session_candidates (s : Store) (reviewer_ : string) : list SessionRow :=
  filter (λ r, session_reviewer r = reviewer_) (review_sessions s).

(** How many rows a query with [LIMIT limit] returns out of [n]. *)
Definition limited (limit : Z) (n : nat) : nat :=
  if limit <? 0 then n else min (Z.to_nat limit) n.

(** * The migrations *)

(** ** The schema

    The migrations run DDL statements against the database.  They are
    modelled by their effect on the schema: the tables with their columns
    and table constraints, and the indexes.  Names are compared as written. *)

Record Column := mkColumn {
  col_name : string;
  col_def : string
}.

Record Table := mkTable {
  tbl_columns : list Column;
  tbl_constraints : list string
}.

Record Index := mkIndex {
  idx_table : string;
  idx_column : string;
  idx_where : option string
}.

Record Schema := mkSchema {
  tables : gmap string Table;
  indexes : gmap string Index
}.

Definition column_names (t : Table) : list string := col_name <$> tbl_columns t.

(** The call sites of the migrations, where the driver can fail. *)
Inductive DDLSite :=
  | CheckTable (name : string)
  | CreateTable (name : string)
  | CheckColumn (name : string)
  | AddColumn (name : string)
  | CreateIndex (name : string).

Definition DDLFaults := DDLSite → option string.

Definition no_ddl_faults : DDLFaults := λ _, None.

(** [SELECT COUNT( * ) > 0 FROM sqlite_master WHERE type='table' AND name=?] *)
Definition table_exists (fl : DDLFaults) (name : string) (sch : Schema)
    : string + bool :=
  match fl (CheckTable name) with
  | Some e => inl e
  | None => inr (bool_decide (is_Some (tables sch !! name)))
  end.

(** [SELECT COUNT( * ) > 0 FROM pragma_table_info('<table>') WHERE name = ?]:
    an unknown table has no columns. *)
Definition column_exists (fl : DDLFaults) (table name : string) (sch : Schema)
    : string + bool :=
  match fl (CheckColumn name) with
  | Some e => inl e
  | None =>
      inr match tables sch !! table with
          | Some t => bool_decide (name ∈ column_names t)
          | None => false
          end
  end.

(** [CREATE TABLE <name> (...)] *)
Definition create_table (fl : DDLFaults) (name : string) (t : Table)
    (sch : Schema) : string + Schema :=
  match fl (CreateTable name) with
  | Some e => inl e
  | None =>
      match tables sch !! name with
      | Some _ => inl ("table " +:+ name +:+ " already exists")
      | None => inr (mkSchema (<[name := t]> (tables sch)) (indexes sch))
      end
  end.

(** [ALTER TABLE <table> ADD COLUMN <name> <definition>] *)
Definition add_column (fl : DDLFaults) (table : string) (col : Column)
    (sch : Schema) : string + Schema :=
  match fl (AddColumn (col_name col)) with
  | Some e => inl e
  | None =>
      match tables sch !! table with
      | None => inl ("no such table: " +:+ table)
      | Some t =>
          if bool_decide (col_name col ∈ column_names t) then
            inl ("duplicate column name: " +:+ col_name col)
          else
            inr (mkSchema
                   (<[table := mkTable (tbl_columns t ++ [col]) (tbl_constraints t)]>
                      (tables sch))
                   (indexes sch))
      end
  end.

(** [CREATE INDEX IF NOT EXISTS <name> ON <table>(<column>) [WHERE ...]]:
    nothing happens when an index of that name exists. *)
Definition create_index_if_not_exists (fl : DDLFaults) (name : string)
    (idx : Index) (sch : Schema) : string + Schema :=
  match fl (CreateIndex name) with
  | Some e => inl e
  | None =>
      match indexes sch !! name with
      | Some _ => inr sch
      | None =>
          match tables sch !! idx_table idx with
          | None => inl ("no such table: main." +:+ idx_table idx)
          | Some t =>
              if bool_decide (idx_column idx ∈ column_names t) then
                inr (mkSchema (tables sch) (<[name := idx]> (indexes sch)))
              else
                inl ("no such column: " +:+ idx_column idx)
          end
      end
  end.

(** The loop over the indexes of a migration:
    [for _, idx := range indexes { ... "failed to create %s index: %w" }]. *)
Fixpoint create_indexes (fl : DDLFaults) (idxs : list (string * Index))
    (sch : Schema) : Schema * option string :=
  match idxs with
  | [] => (sch, None)
  | (name, idx) :: rest =>
      match create_index_if_not_exists fl name idx sch with
      | inl e => (sch, Some ("failed to create " +:+ name +:+ " index: " +:+ e))
      | inr sch' => create_indexes fl rest sch'
      end
  end.

(** ** Migration 019: MigrateReviewColumns *)

Definition review_columns : list Column :=
  [mkColumn "review_status"
     "TEXT DEFAULT 'unreviewed' CHECK(review_status IN ('', 'unreviewed', 'approved', 'needs_revision', 'deferred'))";
   mkColumn "reviewed_by" "TEXT";
   mkColumn "reviewed_at" "DATETIME"].

(** The loop over the columns: a column that exists is skipped. *)
Fixpoint add_missing_columns (fl : DDLFaults) (cols : list Column)
    (sch : Schema) : Schema * option string :=
  match cols with
  | [] => (sch, None)
  | col :: rest =>
      match column_exists fl "issues" (col_name col) sch with
      | inl e =>
          (sch, Some ("failed to check " +:+ col_name col +:+ " column: " +:+ e))
      | inr true => add_missing_columns fl rest sch
      | inr false =>
          match add_column fl "issues" col sch with
          | inl e =>
              (sch, Some ("failed to add " +:+ col_name col +:+ " column: " +:+ e))
          | inr sch' => add_missing_columns fl rest sch'
          end
      end
  end.

Definition idx_issues_review_status : Index :=
  mkIndex "issues" "review_status" None.

Definition idx_issues_reviewed_at : Index :=
  mkIndex "issues" "reviewed_at" (Some "reviewed_at IS NOT NULL").

Definition MigrateReviewColumns (fl : DDLFaults) (sch : Schema)
    : Schema * option string :=
  match add_missing_columns fl review_columns sch with
  | (sch, Some e) => (sch, Some e)
  | (sch, None) =>
  (* Add index on review_status for efficient filtering *)
  match create_index_if_not_exists fl "idx_issues_review_status"
          idx_issues_review_status sch with
  | inl e => (sch, Some ("failed to create review_status index: " +:+ e))
  | inr sch =>
  (* Add index on reviewed_at for conflict resolution *)
  match create_index_if_not_exists fl "idx_issues_reviewed_at"
          idx_issues_reviewed_at sch with
  | inl e => (sch, Some ("failed to create reviewed_at index: " +:+ e))
  | inr sch => (sch, None)
  end end end.

(** ** Migration 020: MigrateReviewsTable *)

Definition reviews_table : Table :=
  mkTable
    [mkColumn "id" "INTEGER PRIMARY KEY AUTOINCREMENT";
     mkColumn "issue_id" "TEXT NOT NULL";
     mkColumn "review_type" "TEXT NOT NULL DEFAULT 'plan'";
     mkColumn "outcome"
       "TEXT NOT NULL CHECK(outcome IN ('approved', 'needs_revision', 'deferred'))";
     mkColumn "reviewer" "TEXT NOT NULL";
     mkColumn "notes" "TEXT DEFAULT ''";
     mkColumn "created_at" "DATETIME NOT NULL DEFAULT CURRENT_TIMESTAMP"]
    ["FOREIGN KEY (issue_id) REFERENCES issues(id) ON DELETE CASCADE"].

Definition reviews_indexes : list (string * Index) :=
  [("idx_reviews_issue", mkIndex "reviews" "issue_id" None);
   ("idx_reviews_reviewer", mkIndex "reviews" "reviewer" None);
   ("idx_reviews_created", mkIndex "reviews" "created_at" None)].

(** The shape the two table migrations share: check for the table, create
    it when it is missing, then create the indexes. *)
Definition migrate_table (fl : DDLFaults) (name : string) (t : Table)
    (idxs : list (string * Index)) (sch : Schema) : Schema * option string :=
  (* Check if table already exists *)
  match table_exists fl name sch with
  | inl e => (sch, Some ("failed to check for " +:+ name +:+ " table: " +:+ e))
  | inr tableExists =>
      match
        (if negb tableExists then
           match create_table fl name t sch with
           | inl e => inl ("failed to create " +:+ name +:+ " table: " +:+ e)
           | inr sch' => inr sch'
           end
         else inr sch)
      with
      | inl e => (sch, Some e)
      | inr sch' =>
          (* Create indexes (idempotent) *)
          create_indexes fl idxs sch'
      end
  end.

Definition MigrateReviewsTable (fl : DDLFaults) (sch : Schema)
    : Schema * option string :=
  migrate_table fl "reviews" reviews_table reviews_indexes sch.

(** ** MigrateReviewSessionsTable *)

Definition review_sessions_table : Table :=
  mkTable
    [mkColumn "id" "INTEGER PRIMARY KEY AUTOINCREMENT";
     mkColumn "root_issue_id" "TEXT NOT NULL";
     mkColumn "reviewer" "TEXT NOT NULL";
     mkColumn "started_at" "DATETIME NOT NULL DEFAULT CURRENT_TIMESTAMP";
     mkColumn "completed_at" "DATETIME";
     mkColumn "summary" "TEXT DEFAULT ''";
     mkColumn "items_reviewed" "INTEGER DEFAULT 0";
     mkColumn "items_approved" "INTEGER DEFAULT 0";
     mkColumn "items_needs_revision" "INTEGER DEFAULT 0";
     mkColumn "items_deferred" "INTEGER DEFAULT 0"]
    ["FOREIGN KEY (root_issue_id) REFERENCES issues(id) ON DELETE CASCADE"].

Definition review_sessions_indexes : list (string * Index) :=
  [("idx_review_sessions_root", mkIndex "review_sessions" "root_issue_id" None);
   ("idx_review_sessions_reviewer", mkIndex "review_sessions" "reviewer" None)].

Definition MigrateReviewSessionsTable (fl : DDLFaults) (sch : Schema)
    : Schema * option string :=
  migrate_table fl "review_sessions" review_sessions_table
    review_sessions_indexes sch.

(** ** Properties of schemas *)

(** [sch'] extends [sch]: every table of [sch] is in [sch'] with the same
    constraints and with its columns first and unchanged, and every index of
    [sch] is in [sch'] unchanged. *)
Definition schema_extends (sch sch' : Schema) : Prop :=
  (∀ name t, tables sch !! name = Some t →
     ∃ t', tables sch' !! name = Some t' ∧
           tbl_columns t `prefix_of` tbl_columns t' ∧
           tbl_constraints t' = tbl_constraints t) ∧
  (∀ name idx, indexes sch !! name = Some idx → indexes sch' !! name = Some idx).

(** The columns the statements of reviews.go name, per table. *)
Definition reviews_statement_columns : list string :=
  ["id"; "issue_id"; "review_type"; "outcome"; "reviewer"; "notes"; "created_at"].

Definition issues_review_statement_columns : list string :=
  ["review_status"; "reviewed_by"; "reviewed_at"].

Definition review_sessions_statement_columns : list string :=
  ["id"; "root_issue_id"; "reviewer"; "started_at"; "completed_at"; "summary";
   "items_reviewed"; "items_approved"; "items_needs_revision"; "items_deferred"].

(** A schema with a bare [issues] table, and one without it. *)
Definition bare_schema : Schema :=
  mkSchema {[ "issues" := mkTable [mkColumn "id" "TEXT PRIMARY KEY";
                                   mkColumn "title" "TEXT NOT NULL";
                                   mkColumn "updated_at" "DATETIME"] [] ]} ∅.

Definition empty_schema : Schema := mkSchema ∅ ∅.

(** A table of the schema has a column of that name. *)
Definition has_column (sch : Schema) (table name : string) : Prop :=
  ∃ t, tables sch !! table = Some t ∧ name ∈ column_names t.

(** The indexes of a migration are on columns of its table. *)
Definition indexes_fit (name : string) (t : Table) (idxs : list (string * Index))
    : Prop :=
  Forall (λ ni, idx_table ni.2 = name ∧ idx_column ni.2 ∈ column_names t) idxs.

(** The columns of a list that a table does not have yet. *)
Definition missing_columns (t : Table) (cols : list Column) : list Column :=
  filter (λ c, col_name c ∉ column_names t) cols.

(** An [issues] table that already has a [reviewed_by] column, declared
    differently. *)
Definition partial_schema : Schema :=
  mkSchema {[ "issues" := mkTable [mkColumn "id" "TEXT PRIMARY KEY";
                                   mkColumn "reviewed_by" "INTEGER"] [] ]} ∅.

(** * Properties *)

(** ** CreateReview, statement by statement *)

Lemma IsZero_spec t : IsZero t = true ↔ t = 0.
Proof. unfold IsZero. apply Z.eqb_eq. Qed.

Ltac tx_unfold :=
  unfold CreateReview, withTx, CreateReview_tx, or_wrap, insert_review,
    LastInsertId, update_issue_review, mark_dirty, insert_event, driver,
    tx_bind, tx_ret, tx_fail in *.

Ltac tx_cases :=
  repeat (simpl in *; case_match; simplify_eq; try done).

(** The effect of a CreateReview without error, table by table. *)
Lemma CreateReview_ok fl now review actor_ s s' review' :
  CreateReview fl now review actor_ s = (s', review', None) →
  let created := if IsZero (CreatedAt review) then now else CreatedAt review in
  reviews s' =
    reviews s ++ [mkReviewRow (reviews_seq s + 1) (IssueID review)
                    (ReviewType review) (Outcome review) (Reviewer review)
                    (Some (Notes review)) created] ∧
  reviews_seq s' = reviews_seq s + 1 ∧
  issues s' =
    match issues s !! IssueID review with
    | Some row =>
        <[IssueID review :=
            mkIssueRow (title row) (Outcome review) (Some (Reviewer review))
              (Some now) now]> (issues s)
    | None => issues s
    end ∧
  dirty_issues s' = upsert_dirty (IssueID review) now (dirty_issues s) ∧
  events s' =
    events s ++ [mkEventRow (IssueID review) "reviewed" actor_
                   ("Review: " +:+ Outcome review +:+ " by " +:+ Reviewer review)] ∧
  review_sessions s' = review_sessions s ∧
  review_sessions_seq s' = review_sessions_seq s ∧
  foreign_keys s' = foreign_keys s ∧
  review' = set_ID (reviews_seq s + 1) (set_CreatedAt created review).
Proof.
  intros H. tx_unfold. destruct review as [i iss ty oc rv nt ca].
  destruct s; destruct (IsZero ca) eqn:Hz; tx_cases.
Qed.

(** A CreateReview that returns an error leaves the database as it was. *)
Lemma CreateReview_err fl now review actor_ s s' review' e :
  CreateReview fl now review actor_ s = (s', review', Some e) → s' = s.
Proof.
  intros H. tx_unfold. destruct review as [i iss ty oc rv nt ca].
  destruct s; destruct (IsZero ca) eqn:Hz; tx_cases.
Qed.

(** The CHECK of [issues.review_status] admits every outcome the CHECK of
    [reviews.outcome] admits. *)
Lemma outcome_check_status_check o :
  reviews_outcome_check o = true → issues_review_status_check o = true.
Proof.
  unfold reviews_outcome_check, issues_review_status_check.
  rewrite !bool_decide_eq_true. set_solver.
Qed.

(** When the driver does not fail, CreateReview succeeds as soon as the
    outcome is one the table admits, the foreign key is satisfied (or not
    enforced), and the row counter has room. *)
Lemma CreateReview_succeeds fl now review actor_ s :
  (∀ site, site ∈ tx_sites → fl site = None) →
  reviews_outcome_check (Outcome review) = true →
  foreign_keys s = false ∨ is_Some (issues s !! IssueID review) →
  reviews_seq s < max_int64 →
  ∃ s' review', CreateReview fl now review actor_ s = (s', review', None).
Proof.
  intros Hfl Hoc Hfk Hseq.
  assert (Hst := outcome_check_status_check _ Hoc).
  assert (∀ site, bool_decide (site ∈ tx_sites) = true → fl site = None) as Hfl'
    by (intros ? ?%bool_decide_eq_true; auto).
  pose proof (Hfl' SiteBegin eq_refl) as F1.
  pose proof (Hfl' SiteInsertReview eq_refl) as F2.
  pose proof (Hfl' SiteLastInsertId eq_refl) as F3.
  pose proof (Hfl' SiteUpdateIssue eq_refl) as F4.
  pose proof (Hfl' SiteMarkDirty eq_refl) as F5.
  pose proof (Hfl' SiteRecordEvent eq_refl) as F6.
  pose proof (Hfl' SiteCommit eq_refl) as F7.
  clear Hfl Hfl'.
  assert (foreign_keys s && bool_decide (issues s !! IssueID review = None) = false)
    as Hfk'.
  { destruct Hfk as [-> | [row Hrow]]; [done |].
    rewrite Hrow, bool_decide_eq_false_2 by done. apply andb_false_r. }
  assert ((max_int64 <=? reviews_seq s) = false) as Hseq' by (apply Z.leb_gt; done).
  tx_unfold. destruct review as [i iss ty oc rv nt ca]. simpl in *.
  destruct s as [iss_ rvs seq dty evs sess sseq fk]; simpl in *.
  rewrite F1, F2, F3, F4, F5, F6, F7.
  destruct (IsZero ca); simpl; rewrite Hoc, Hfk', Hseq'; simpl;
    destruct (iss_ !! iss); simpl; rewrite ?Hst; simpl; eauto.
Qed.

(** The function handed to [withTx] is not atomic by itself: when the last
    statement fails, the transaction's view already holds the earlier
    writes.  It is the rollback of [withTx] that discards them. *)
Example CreateReview_tx_partial :
  let '(tx, _, err) :=
    CreateReview_tx (fail_at SiteRecordEvent) 9 "bob" sample_store sample_review in
  err = Some "failed to record event: disk I/O error" ∧
  length (reviews tx) = 1%nat ∧ length (dirty_issues tx) = 1%nat ∧
  review_status <$> issues tx !! "bd-1" = Some "approved".
Proof. vm_compute. done. Qed.

Example CreateReview_rolled_back :
  CreateReview (fail_at SiteRecordEvent) 9 sample_review "bob" sample_store =
  (sample_store, set_ID 1 (set_CreatedAt 9 sample_review),
   Some "failed to record event: disk I/O error").
Proof. vm_compute. done. Qed.

(** C1.  Every call of CreateReview either returns an error and leaves the
    database exactly as it was, or returns no error and has applied all four
    writes: the new row of [reviews], the review columns of the issue, the
    dirty marker of the issue, and the new row of [events]. *)
Theorem CreateReview_all_or_nothing fl now review actor_ s :
  let '(s', _, err) := CreateReview fl now review actor_ s in
  match err with
  | Some _ => s' = s
  | None =>
      reviews s' =
        reviews s ++
          [mkReviewRow (reviews_seq s + 1) (IssueID review) (ReviewType review)
             (Outcome review) (Reviewer review) (Some (Notes review))
             (if IsZero (CreatedAt review) then now else CreatedAt review)] ∧
      issues s' !! IssueID review =
        (λ row, mkIssueRow (title row) (Outcome review)
                  (Some (Reviewer review)) (Some now) now)
          <$> issues s !! IssueID review ∧
      (∀ other, other ≠ IssueID review → issues s' !! other = issues s !! other) ∧
      dirty_issues s' = upsert_dirty (IssueID review) now (dirty_issues s) ∧
      events s' =
        events s ++
          [mkEventRow (IssueID review) "reviewed" actor_
             ("Review: " +:+ Outcome review +:+ " by " +:+ Reviewer review)]
  end.
Proof.
  destruct (CreateReview fl now review actor_ s) as [[s' review'] [e|]] eqn:Hrun.
  - by eapply CreateReview_err.
  - apply CreateReview_ok in Hrun as (Hr & _ & Hi & Hd & He & _).
    rewrite Hr, Hi, Hd, He. repeat split; try done.
    + destruct (issues s !! IssueID review) as [row|] eqn:Hrow; simpl.
      * by rewrite lookup_insert_eq.
      * done.
    + intros other Hother. destruct (issues s !! IssueID review); [|done].
      by rewrite lookup_insert_ne.
Qed.

(** ** The audit event *)

Lemma string_app_assoc (a b c : string) : (a +:+ b) +:+ c = a +:+ (b +:+ c).
Proof.
  induction a as [|ch a IH]; [done|].
  change (String ch ((a +:+ b) +:+ c) = String ch (a +:+ (b +:+ c))).
  by rewrite IH.
Qed.

(** C6.  A CreateReview that returns without error appends exactly one row
    to [events]: it is for the reviewed issue, its type is "reviewed", its
    actor is the one the caller supplied, and its comment contains the
    outcome and the reviewer of the review. *)
Theorem CreateReview_records_event fl now review actor_ s s' review' :
  CreateReview fl now review actor_ s = (s', review', None) →
  ∃ ev, events s' = events s ++ [ev] ∧
        event_issue_id ev = IssueID review ∧
        event_type ev = "reviewed" ∧
        actor ev = actor_ ∧
        comment ev = "Review: " +:+ Outcome review +:+ " by " +:+ Reviewer review ∧
        (∃ before after, comment ev = before +:+ Outcome review +:+ after) ∧
        (∃ before, comment ev = before +:+ Reviewer review).
Proof.
  intros Hrun. apply CreateReview_ok in Hrun as (_ & _ & _ & _ & He & _).
  eexists. split; [exact He|]. simpl. repeat split.
  - by exists "Review: ", (" by " +:+ Reviewer review).
  - exists ("Review: " +:+ Outcome review +:+ " by ").
    by rewrite !string_app_assoc.
Qed.

Lemma CreateReview_records_event_witness :
  CreateReview no_faults 9 sample_review "bob" sample_store =
    ((CreateReview no_faults 9 sample_review "bob" sample_store).1.1,
     (CreateReview no_faults 9 sample_review "bob" sample_store).1.2, None) ∧
  events (CreateReview no_faults 9 sample_review "bob" sample_store).1.1 =
    [mkEventRow "bd-1" "reviewed" "bob" "Review: approved by alice"].
Proof.
  assert (CreateReview no_faults 9 sample_review "bob" sample_store =
    ((CreateReview no_faults 9 sample_review "bob" sample_store).1.1,
     (CreateReview no_faults 9 sample_review "bob" sample_store).1.2, None)) as Hrun
    by (vm_compute; reflexivity).
  split; [exact Hrun|].
  destruct (CreateReview_records_event _ _ _ _ _ _ _ Hrun)
    as (ev & Hev & Hid & Hty & Hac & Hcm & _).
  rewrite Hev. destruct ev; simpl in *. by rewrite Hid, Hty, Hac, Hcm.
Defined.

(** ** The dirty marker *)

Section DirtyMarker.

Implicit Types (rows : list DirtyRow) (issue : string) (t : Time).

(** The upsert leaves the markers of the other issues alone. *)
Lemma upsert_dirty_other issue other t rows :
  other ≠ issue →
  filter (λ row, dirty_issue_id row = other) (upsert_dirty issue t rows) =
  filter (λ row, dirty_issue_id row = other) rows.
Proof.
  intros Hne. induction rows as [|row rows IH]; simpl.
  - by rewrite filter_cons_False by (simpl; congruence).
  - case_decide as Hrow.
    + rewrite !filter_cons. simpl. rewrite Hrow.
      by rewrite !decide_False by congruence.
    + rewrite !filter_cons, IH. done.
Qed.

(** The issues that have a marker: the upsert adds the issue at the end
    when it has none, and changes nothing otherwise. *)
Lemma upsert_dirty_keys issue t rows :
  dirty_issue_id <$> upsert_dirty issue t rows =
  if decide (issue ∈ dirty_issue_id <$> rows)
  then dirty_issue_id <$> rows
  else (dirty_issue_id <$> rows) ++ [issue].
Proof.
  induction rows as [|row rows IH].
  - case_decide as Hin; [by apply elem_of_nil in Hin | done].
  - cbn [upsert_dirty]. rewrite fmap_cons.
    destruct (decide (dirty_issue_id row = issue)) as [Hrow|Hrow].
    + rewrite fmap_cons. simpl dirty_issue_id at 1.
      rewrite decide_True by (rewrite Hrow; left). by rewrite Hrow.
    + rewrite fmap_cons, IH. destruct (decide (issue ∈ dirty_issue_id <$> rows)).
      * rewrite decide_True; [done | by right].
      * rewrite decide_False; [done|]. rewrite elem_of_cons. naive_solver.
Qed.

Lemma upsert_dirty_NoDup issue t rows :
  NoDup (dirty_issue_id <$> rows) →
  NoDup (dirty_issue_id <$> upsert_dirty issue t rows).
Proof.
  intros Hnd. rewrite upsert_dirty_keys. case_decide as Hin; [done|].
  apply NoDup_app. split_and!; [done | | apply NoDup_singleton].
  intros x Hx ->%list_elem_of_singleton. done.
Qed.

(** After the upsert the issue has exactly one marker, with the new time. *)
Lemma upsert_dirty_self issue t rows :
  NoDup (dirty_issue_id <$> rows) →
  filter (λ row, dirty_issue_id row = issue) (upsert_dirty issue t rows) =
  [mkDirtyRow issue t].
Proof.
  induction rows as [|row rows IH]; simpl; intros Hnd.
  - by rewrite filter_cons_True.
  - apply NoDup_cons in Hnd as [Hrow Hnd]. case_decide as Heq.
    + rewrite filter_cons_True by done. f_equal.
      apply elem_of_nil_inv. intros x [Hk Hx]%list_elem_of_filter.
      apply Hrow. rewrite Heq, <- Hk. by apply list_elem_of_fmap_2.
    + rewrite filter_cons_False by done. by apply IH.
Qed.

End DirtyMarker.

(** A sequence of calls is run part by part. *)
Lemma CreateReview_seq_app l1 l2 s :
  CreateReview_seq (l1 ++ l2) s = CreateReview_seq l1 s ≫= CreateReview_seq l2.
Proof.
  revert s. induction l1 as [|c l1 IH]; intros s; simpl; [done|].
  destruct (CreateReview _ _ _ _ s) as [[s1 r1] [e|]]; [done | apply IH].
Qed.

(** The table [dirty_issues] never holds two markers for one issue. *)
Lemma CreateReview_seq_NoDup calls s s' :
  NoDup (dirty_issue_id <$> dirty_issues s) →
  CreateReview_seq calls s = Some s' →
  NoDup (dirty_issue_id <$> dirty_issues s').
Proof.
  revert s. induction calls as [|c calls IH]; intros s Hnd; simpl.
  - by intros [= <-].
  - destruct (CreateReview _ _ _ _ s) as [[s1 r1] [e|]] eqn:Hrun; [done|].
    apply IH. apply CreateReview_ok in Hrun as (_ & _ & _ & Hd & _).
    rewrite Hd. by apply upsert_dirty_NoDup.
Qed.

(** Calls for other issues leave the marker and the row of an issue alone. *)
Lemma CreateReview_seq_other X calls s s' :
  Forall (λ d, IssueID (call_review d) ≠ X) calls →
  CreateReview_seq calls s = Some s' →
  dirty_rows s' X = dirty_rows s X ∧ issues s' !! X = issues s !! X.
Proof.
  revert s. induction calls as [|c calls IH]; intros s Hall; simpl.
  - by intros [= <-].
  - apply Forall_cons in Hall as [Hc Hall].
    destruct (CreateReview _ _ _ _ s) as [[s1 r1] [e|]] eqn:Hrun; [done|].
    intros Hrest. destruct (IH _ Hall Hrest) as [-> ->].
    apply CreateReview_ok in Hrun as (_ & _ & Hi & Hd & _).
    unfold dirty_rows. rewrite Hd, Hi. split.
    + by apply upsert_dirty_other.
    + destruct (issues s !! IssueID (call_review c)); [|done].
      by rewrite lookup_insert_ne.
Qed.

(** C4.  Marking an issue dirty is an upsert keyed on the issue.  Take any
    sequence of CreateReview calls that all succeed, starting from a table
    with at most one marker per issue, and let [c] be the last call for
    issue [X] in it.  Afterwards [X] has exactly one marker, its [marked_at]
    is the time of call [c], and that is also the [updated_at] the call
    wrote to the issue, so [marked_at] is not before it. *)
Theorem dirty_marker_upsert X before c after s s' :
  NoDup (dirty_issue_id <$> dirty_issues s) →
  IssueID (call_review c) = X →
  Forall (λ d, IssueID (call_review d) ≠ X) after →
  CreateReview_seq (before ++ c :: after) s = Some s' →
  dirty_rows s' X = [mkDirtyRow X (call_now c)] ∧
  NoDup (dirty_issue_id <$> dirty_issues s') ∧
  ∀ irow d, issues s' !! X = Some irow → d ∈ dirty_rows s' X →
            updated_at irow = call_now c ∧ updated_at irow ≤ marked_at d.
Proof.
  intros Hnd HX Hafter Hrun.
  assert (NoDup (dirty_issue_id <$> dirty_issues s')) as Hnd'
    by (eapply CreateReview_seq_NoDup; eauto).
  rewrite CreateReview_seq_app in Hrun.
  destruct (CreateReview_seq before s) as [s1|] eqn:Hbefore; [|done].
  simpl in Hrun.
  destruct (CreateReview _ _ _ _ s1) as [[s2 r2] [e|]] eqn:Hc; [done|].
  destruct (CreateReview_seq_other X _ _ _ Hafter Hrun) as [Hd' Hi'].
  apply CreateReview_ok in Hc as (_ & _ & Hi & Hd & _).
  assert (dirty_rows s' X = [mkDirtyRow X (call_now c)]) as Hrows.
  { rewrite Hd'. unfold dirty_rows. rewrite Hd, HX.
    apply upsert_dirty_self. exact (CreateReview_seq_NoDup _ _ _ Hnd Hbefore). }
  split_and!; [done | done |].
  intros irow d Hirow Hdin. rewrite Hrows in Hdin.
  apply list_elem_of_singleton in Hdin as ->. simpl.
  rewrite Hi', Hi, HX in Hirow.
  destruct (issues s1 !! X) as [row|] eqn:Hrow.
  - rewrite lookup_insert_eq in Hirow. injection Hirow as <-. simpl. lia.
  - congruence.
Qed.

Lemma dirty_marker_upsert_witness :
  CreateReview_seq ([sample_call1] ++ sample_call2 :: []) sample_store =
    Some sample_twice ∧
  dirty_rows sample_twice "bd-1" = [mkDirtyRow "bd-1" 12].
Proof.
  assert (CreateReview_seq ([sample_call1] ++ sample_call2 :: []) sample_store =
          Some sample_twice) as Hrun by (vm_compute; reflexivity).
  split; [exact Hrun|].
  apply (dirty_marker_upsert "bd-1" [sample_call1] sample_call2 [] sample_store
           sample_twice).
  - simpl. apply NoDup_nil_2.
  - reflexivity.
  - apply Forall_nil_2.
  - exact Hrun.
Defined.

(** ** The review columns of the issue *)

(** What a successful CreateReview leaves in the issue and in the last row
    of [reviews]: outcome and reviewer agree, and [reviewed_at] is the time
    of the call while [created_at] is the caller's timestamp when there is
    one. *)
Lemma CreateReview_summary_fields fl now review actor_ s s' review' :
  CreateReview fl now review actor_ s = (s', review', None) →
  is_Some (issues s !! IssueID review) →
  ∃ irow rrow,
    issues s' !! IssueID review = Some irow ∧ last (reviews s') = Some rrow ∧
    review_status irow = outcome rrow ∧
    reviewed_by irow = Some (reviewer rrow) ∧
    reviewed_at irow = Some now ∧
    updated_at irow = now ∧
    outcome rrow = Outcome review ∧ reviewer rrow = Reviewer review ∧
    issue_id rrow = IssueID review ∧
    created_at rrow = (if IsZero (CreatedAt review) then now else CreatedAt review).
Proof.
  intros Hrun [row Hrow].
  apply CreateReview_ok in Hrun as (Hr & _ & Hi & _).
  rewrite Hrow in Hi. rewrite Hi, Hr, lookup_insert_eq, last_snoc.
  do 2 eexists. split_and!; done.
Qed.

(** The issue's [reviewed_at] is the [created_at] of the review just stored
    exactly when the caller left [CreatedAt] zero, or dated the review with
    the very instant of the call. *)
Lemma CreateReview_reviewed_at_agrees_iff fl now review actor_ s s' review' :
  CreateReview fl now review actor_ s = (s', review', None) →
  is_Some (issues s !! IssueID review) →
  (issues s' !! IssueID review ≫= reviewed_at) =
    (created_at <$> last (reviews s')) ↔
  CreatedAt review = 0 ∨ CreatedAt review = now.
Proof.
  intros Hrun Hissue.
  destruct (CreateReview_summary_fields _ _ _ _ _ _ _ Hrun Hissue)
    as (irow & rrow & -> & -> & _ & _ & Hat & _ & _ & _ & _ & Hcreated).
  simpl. rewrite Hat, Hcreated. unfold IsZero.
  destruct (Z.eqb_spec (CreatedAt review) 0) as [Hz|Hz]; split.
  - by left.
  - done.
  - intros [= ->]. by right.
  - intros [?| ->]; done.
Qed.

(** C2.  With a review dated by the caller (CreatedAt 5) and the clock at 9,
    CreateReview succeeds, stores the review with [created_at] 5, and sets
    the issue's [reviewed_at] to 9: the issue's [reviewed_at] is not the
    [created_at] of its most recent review. *)
Theorem CreateReview_dated_review_diverges :
  let '(s', _, err) := CreateReview no_faults 9 dated_review "bob" sample_store in
  err = None ∧
  GetReviewsByIssue no_faults s' "bd-1" =
    ([mkReview 1 "bd-1" "plan" "approved" "alice" "" 5], None) ∧
  issues s' !! "bd-1" =
    Some (mkIssueRow "Add login" "approved" (Some "alice") (Some 9) 9) ∧
  reviewed_at <$> issues s' !! "bd-1" ≠ Some (created_at <$> last (reviews s')).
Proof. vm_compute. split_and!; done. Qed.

(** ** ORDER BY created_at ASC *)

Section OrderBy.

Implicit Types (r x : ReviewRow) (l : list ReviewRow).

Local Abbreviation before := (λ a b : ReviewRow, created_at a ≤ created_at b).

Lemma insert_by_created_at_perm r l : insert_by_created_at r l ≡ₚ r :: l.
Proof.
  induction l as [|x l IH]; simpl; [done|].
  case_match; [done|]. rewrite IH. apply Permutation_swap.
Qed.

Lemma order_by_created_at_perm l : order_by_created_at l ≡ₚ l.
Proof.
  induction l as [|x l IH]; simpl; [done|].
  by rewrite insert_by_created_at_perm, IH.
Qed.

Lemma insert_by_created_at_hd r x l :
  created_at x ≤ created_at r → HdRel before x l →
  HdRel before x (insert_by_created_at r l).
Proof.
  intros Hxr Hhd. destruct l as [|y l]; simpl; [by constructor|].
  case_match; constructor; [done|]. by inversion Hhd.
Qed.

Lemma insert_by_created_at_sorted r l :
  chronological l → chronological (insert_by_created_at r l).
Proof.
  unfold chronological. induction 1 as [|x l Hl IH Hhd]; simpl.
  - repeat constructor.
  - destruct (created_at r <=? created_at x) eqn:Hle.
    + apply Z.leb_le in Hle. repeat constructor; done.
    + apply Z.leb_gt in Hle. constructor; [done|].
      apply insert_by_created_at_hd; [lia | done].
Qed.

Lemma order_by_created_at_sorted l : chronological (order_by_created_at l).
Proof.
  induction l as [|x l IH]; simpl; [constructor|].
  by apply insert_by_created_at_sorted.
Qed.

(** A row that is not after any row of the list goes in front. *)
Lemma insert_by_created_at_front r l :
  Forall (before r) l → insert_by_created_at r l = r :: l.
Proof.
  destruct 1 as [|x l Hx _]; simpl; [done|].
  by rewrite (proj2 (Z.leb_le _ _) Hx).
Qed.

(** Rows already in chronological order come back as they are. *)
Lemma order_by_created_at_id l :
  chronological l → order_by_created_at l = l.
Proof.
  intros Hl. apply Sorted_StronglySorted in Hl; [|intros ???; lia].
  induction Hl as [|x l Hl IH Hx]; simpl; [done|].
  rewrite IH. by apply insert_by_created_at_front.
Qed.

(** Inserting the same row into a chronological list and into one of its
    sublists keeps the one a sublist of the other. *)
Lemma insert_by_created_at_sublist r l1 l2 :
  l1 `sublist_of` l2 → StronglySorted before l2 →
  insert_by_created_at r l1 `sublist_of` insert_by_created_at r l2.
Proof.
  induction 1 as [|x l1 l2 Hsub IH|x l1 l2 Hsub IH]; intros Hs; simpl.
  - done.
  - apply StronglySorted_inv in Hs as [Hs _].
    case_match; repeat constructor; auto.
  - apply StronglySorted_inv in Hs as [Hs Hx].
    destruct (created_at r <=? created_at x) eqn:Hle.
    + apply Z.leb_le in Hle. rewrite insert_by_created_at_front.
      * by repeat constructor.
      * apply Forall_forall. intros y Hy.
        assert (y ∈ l2) as Hy2 by (eapply elem_of_sublist; eauto).
        rewrite Forall_forall in Hx. specialize (Hx y Hy2). simpl in *. lia.
    + constructor. auto.
Qed.

Lemma order_by_created_at_strongly l :
  StronglySorted before (order_by_created_at l).
Proof.
  apply Sorted_StronglySorted; [intros ???; lia|].
  apply order_by_created_at_sorted.
Qed.

(** A row added at the end of the table does not disturb the order in
    which the earlier rows are returned. *)
Lemma order_by_created_at_snoc l r :
  order_by_created_at l `sublist_of` order_by_created_at (l ++ [r]).
Proof.
  induction l as [|x l IH]; simpl.
  - apply sublist_nil_l.
  - apply insert_by_created_at_sublist; [done|].
    apply order_by_created_at_strongly.
Qed.

End OrderBy.

(** ** GetReviewsByIssue *)

(** Without driver failures the loop scans every row, in order. *)
Lemma scan_reviews_no_faults fl i rows acc :
  (∀ site, fl site = None) →
  scan_reviews fl i rows acc = (acc ++ (scan_review <$> rows), None).
Proof.
  intros Hfl. revert i acc.
  induction rows as [|row rows IH]; intros i acc; simpl; rewrite Hfl.
  - by rewrite app_nil_r.
  - rewrite Hfl, IH, <- app_assoc. done.
Qed.

Lemma GetReviewsByIssue_no_faults fl s issueID :
  (∀ site, fl site = None) →
  GetReviewsByIssue fl s issueID =
  (scan_review <$> select_reviews_by_issue s issueID, None).
Proof.
  intros Hfl. unfold GetReviewsByIssue.
  by rewrite Hfl, scan_reviews_no_faults.
Qed.

(** The only errors of GetReviewsByIssue are failures of the driver. *)
Lemma GetReviewsByIssue_error fl s issueID l e :
  GetReviewsByIssue fl s issueID = (l, Some e) → ∃ site, fl site ≠ None.
Proof.
  unfold GetReviewsByIssue. destruct (fl SiteQuery) eqn:Hq.
  { intros _. exists SiteQuery. congruence. }
  generalize (select_reviews_by_issue s issueID) (@nil Review) 0%nat.
  intros rows. induction rows as [|row rows IH]; intros acc i; simpl.
  - destruct (fl (SiteNext i)) eqn:Hn; [|done].
    intros _. exists (SiteNext i). congruence.
  - destruct (fl (SiteNext i)) eqn:Hn.
    { intros _. exists (SiteNext i). congruence. }
    destruct (fl (SiteScan i)) eqn:Hs.
    { intros _. exists (SiteScan i). congruence. }
    apply IH.
Qed.

(** The lines [bd review-history] prints for the reviews of an issue. *)
Lemma reviewHistoryCmd_lines env fl issueID s :
  (∀ site, fl site = None) →
  store_is_sqlite env = true → global_jsonOutput env = false →
  is_Some (issues s !! issueID) →
  select_reviews_by_issue s issueID ≠ [] →
  ∃ header footer,
    stdout (reviewHistoryCmd env fl issueID s) =
    header ++
    (history_line env <$> (scan_review <$> select_reviews_by_issue s issueID)) ++
    footer.
Proof.
  intros Hfl Hsql Hjson [row Hrow] Hne. unfold reviewHistoryCmd, GetIssue.
  rewrite Hfl, Hrow, Hsql, GetReviewsByIssue_no_faults, Hjson by done. simpl.
  rewrite bool_decide_eq_false_2.
  - eexists [_; _], _. simpl. reflexivity.
  - rewrite length_fmap. intros Hlen%nil_length_inv. done.
Qed.

(** C7.  When the driver does not fail, GetReviewsByIssue returns the
    reviews of the issue, all of them and nothing else, in ascending order
    of [created_at]; every review carries the reviewer, type, outcome and
    notes of its row; and the history command prints one line per review in
    that order. *)
Theorem GetReviewsByIssue_chronological env fl s issueID :
  (∀ site, fl site = None) →
  ∃ rows,
    GetReviewsByIssue fl s issueID = (scan_review <$> rows, None) ∧
    rows ≡ₚ filter (λ r, issue_id r = issueID) (reviews s) ∧
    chronological rows ∧
    Sorted (λ a b, CreatedAt a ≤ CreatedAt b) (scan_review <$> rows) ∧
    Forall2 (λ row rev, IssueID rev = issueID ∧ ID rev = id row ∧
                        Reviewer rev = reviewer row ∧
                        ReviewType rev = review_type row ∧
                        Outcome rev = outcome row ∧
                        Notes rev = default "" (notes row) ∧
                        CreatedAt rev = created_at row)
            rows (scan_review <$> rows) ∧
    (store_is_sqlite env = true → global_jsonOutput env = false →
     is_Some (issues s !! issueID) → rows ≠ [] →
     ∃ header footer,
       stdout (reviewHistoryCmd env fl issueID s) =
       header ++ (history_line env <$> (scan_review <$> rows)) ++ footer).
Proof.
  intros Hfl. exists (select_reviews_by_issue s issueID).
  assert (select_reviews_by_issue s issueID ≡ₚ
          filter (λ r, issue_id r = issueID) (reviews s)) as Hperm
    by apply order_by_created_at_perm.
  assert (chronological (select_reviews_by_issue s issueID)) as Hsorted
    by apply order_by_created_at_sorted.
  split_and!.
  - by apply GetReviewsByIssue_no_faults.
  - done.
  - done.
  - clear Hperm. induction Hsorted as [|x l Hl IH Hhd]; simpl; constructor.
    + done.
    + destruct Hhd; constructor. done.
  - apply Forall2_fmap_r, Forall_Forall2_diag, Forall_forall.
    intros row Hrow. simpl. split_and!; try done.
    rewrite Hperm in Hrow. by apply list_elem_of_filter in Hrow as [? _].
  - intros. by apply reviewHistoryCmd_lines.
Qed.

Lemma GetReviewsByIssue_chronological_witness :
  (∀ site, no_faults site = None) ∧
  ∃ rows,
    GetReviewsByIssue no_faults sample_twice "bd-1" = (scan_review <$> rows, None) ∧
    rows ≡ₚ filter (λ r, issue_id r = "bd-1") (reviews sample_twice) ∧
    chronological rows.
Proof.
  split; [done|].
  destruct (GetReviewsByIssue_chronological sample_env no_faults sample_twice "bd-1")
    as (rows & Hget & Hperm & Hsorted & _); [done|].
  exists rows. split_and!; done.
Defined.

(** ** Reviews are append-only *)

Lemma CreateReviewSession_reviews fl now session s :
  reviews (CreateReviewSession fl now session s).1.1 = reviews s.
Proof. unfold CreateReviewSession. repeat case_match; done. Qed.

Lemma UpdateReviewSession_reviews fl session s :
  reviews (UpdateReviewSession fl session s).1 = reviews s.
Proof. unfold UpdateReviewSession. case_match; done. Qed.

Lemma select_reviews_same s' s X :
  reviews s' = reviews s →
  select_reviews_by_issue s' X = select_reviews_by_issue s X.
Proof. unfold select_reviews_by_issue. by intros ->. Qed.

(** The review read back from the row a successful CreateReview wrote is
    the caller's review as the call left it. *)
Lemma CreateReview_select fl now review actor_ s s' review' X :
  CreateReview fl now review actor_ s = (s', review', None) →
  select_reviews_by_issue s X `sublist_of` select_reviews_by_issue s' X ∧
  if decide (IssueID review = X)
  then ∃ row, scan_review row = review' ∧
              select_reviews_by_issue s' X ≡ₚ select_reviews_by_issue s X ++ [row]
  else select_reviews_by_issue s' X = select_reviews_by_issue s X.
Proof.
  intros Hrun. apply CreateReview_ok in Hrun as (Hr & _ & _ & _ & _ & _ & _ & _ & Hrev).
  unfold select_reviews_by_issue. rewrite Hr, filter_app.
  case_decide as HX.
  - rewrite filter_cons_True, filter_nil by done. split.
    + apply order_by_created_at_snoc.
    + eexists. split; [|by rewrite !order_by_created_at_perm].
      rewrite Hrev. by destruct review.
  - rewrite filter_cons_False, filter_nil, app_nil_r by done. done.
Qed.

(** C9.  No write operation of reviews.go changes or removes a stored
    review: after any of them the table [reviews] starts with the rows it
    had, and GetReviewsByIssue returns the earlier reviews unchanged and in
    the same order.  The result differs only after a successful CreateReview
    for that issue, by the one review the call created. *)
Theorem reviews_append_only fl op s X :
  let s' := apply_op fl op s in
  let old := (GetReviewsByIssue no_faults s X).1 in
  let new := (GetReviewsByIssue no_faults s' X).1 in
  reviews s `prefix_of` reviews s' ∧
  old `sublist_of` new ∧
  (new = old ∨
   ∃ now review actor_ review',
     op = OpCreateReview now review actor_ ∧ IssueID review = X ∧
     CreateReview fl now review actor_ s = (s', review', None) ∧
     new ≡ₚ old ++ [review']).
Proof.
  intros s' old new. subst old new.
  rewrite !GetReviewsByIssue_no_faults by done. simpl.
  destruct op as [now review actor_ | now session | session]; subst s'; simpl.
  - destruct (CreateReview fl now review actor_ s) as [[s' review'] [e|]] eqn:Hrun.
    + apply CreateReview_err in Hrun as ->. simpl. split_and!; [done | done | by left].
    + simpl. pose proof (CreateReview_select _ _ _ _ _ _ _ X Hrun) as [Hsub Hnew].
      split_and!.
      * apply CreateReview_ok in Hrun as (-> & _). by apply prefix_app_r.
      * by apply fmap_sublist.
      * case_decide as HX.
        -- right. destruct Hnew as (row & Hrow & Hperm).
           exists now, review, actor_, review'. split_and!; try done.
           by rewrite Hperm, fmap_app, <- Hrow.
        -- left. by rewrite Hnew.
  - rewrite (select_reviews_same (CreateReviewSession fl now session s).1.1 s)
      by apply CreateReviewSession_reviews.
    rewrite CreateReviewSession_reviews. split_and!; [done | done | by left].
  - rewrite (select_reviews_same (UpdateReviewSession fl session s).1 s)
      by apply UpdateReviewSession_reviews.
    rewrite UpdateReviewSession_reviews. split_and!; [done | done | by left].
Qed.

(** ** GetReviewSession *)

(** The only errors of GetReviewSession are failures of the driver. *)
Lemma GetReviewSession_error fl s id_ session e :
  GetReviewSession fl s id_ = (session, Some e) →
  session = None ∧ (fl SiteQuery ≠ None ∨ fl (SiteScan 0) ≠ None).
Proof.
  unfold GetReviewSession. intros H.
  repeat case_match; simplify_eq; split; try done; [left | right]; congruence.
Qed.

(** C10.  Looking up a session id that no row has returns nil and no error;
    the only way the lookup of a missing id ends in an error is a failure of
    the query itself.  For any id, an error comes with a nil session and
    from a failure of the driver. *)
Theorem GetReviewSession_missing fl s id_ :
  (∀ row, row ∈ review_sessions s → session_id row ≠ id_) →
  GetReviewSession fl s id_ =
    match fl SiteQuery with
    | None => (None, None)
    | Some d => (None, Some ("failed to get review session: " +:+ d))
    end ∧
  ∀ other session e,
    GetReviewSession fl s other = (session, Some e) →
    session = None ∧ (fl SiteQuery ≠ None ∨ fl (SiteScan 0) ≠ None).
Proof.
  intros Hmissing. split; [|intros; by eapply GetReviewSession_error].
  unfold GetReviewSession. destruct (fl SiteQuery); [done|].
  destruct (list_find _ _) as [[i row]|] eqn:Hfind; [|done].
  apply list_find_Some in Hfind as (Hi & Hid & _).
  exfalso. eapply Hmissing; [|exact Hid]. by eapply list_elem_of_lookup_2.
Qed.

Lemma GetReviewSession_missing_witness :
  (∀ row, row ∈ review_sessions sample_store → session_id row ≠ 7) ∧
  GetReviewSession no_faults sample_store 7 = (None, None).
Proof.
  assert (∀ row, row ∈ review_sessions sample_store → session_id row ≠ 7) as Hno.
  { simpl. intros row Hrow. by apply elem_of_nil in Hrow. }
  split; [exact Hno|].
  exact (proj1 (GetReviewSession_missing no_faults sample_store 7 Hno)).
Defined.

(** ** Validation in [bd review] *)

(** C3.  When the flags name no outcome or more than one, or the reviewer is
    empty, or the review type is not valid, the command ends in a fatal
    error without having called the store: the database is the one it
    started with, nothing is printed and no flush is asked for.  Unless the
    read-only check ended the command first, the error is one of the four
    validation messages. *)
Theorem reviewCmd_rejects_invalid env fl now issueID flags s :
  asked_count flags = 0%nat ∨ (1 < asked_count flags)%nat ∨
  asked_reviewer flags = "" ∨ IsValid env (asked_type flags) = false →
  ∃ msg,
    reviewCmd env fl now issueID flags s = mkRun (Some msg) [] [] false s ∧
    (CheckReadonly env "review" = None → msg ∈ validation_messages env flags).
Proof.
  intros Hbad. unfold reviewCmd, FatalError, validation_messages.
  fold (asked_count flags) (asked_reviewer flags) (asked_type flags).
  destruct (CheckReadonly env "review") as [ro|]; [by eexists|].
  repeat case_bool_decide;
    try (eexists; split; [reflexivity | intros _; set_solver]).
  destruct (IsValid env (asked_type flags)) eqn:Hvalid; simpl.
  - exfalso. destruct Hbad as [?|[?|[?|?]]]; done.
  - eexists; split; [reflexivity | intros _; set_solver].
Qed.

Lemma reviewCmd_rejects_invalid_witness :
  asked_count no_outcome_flags = 0%nat ∧
  ∃ msg,
    reviewCmd sample_env no_faults 9 "bd-1" no_outcome_flags sample_store =
      mkRun (Some msg) [] [] false sample_store ∧
    msg ∈ validation_messages sample_env no_outcome_flags.
Proof.
  split; [reflexivity|].
  destruct (reviewCmd_rejects_invalid sample_env no_faults 9 "bd-1"
              no_outcome_flags sample_store) as (msg & Hrun & Hmsg).
  - left. reflexivity.
  - exists msg. split; [exact Hrun | apply Hmsg; reflexivity].
Defined.

(** ** Accepted runs of [bd review] *)

(** With exactly one outcome flag the outcome is one the table admits. *)
Lemma asked_outcome_admitted flags :
  asked_count flags = 1%nat → reviews_outcome_check (asked_outcome flags) = true.
Proof.
  unfold asked_count, asked_outcome, count_outcomes, determine_outcome.
  destruct (GetFlag (flag_approve flags) _), (GetFlag (flag_revise flags) _),
    (GetFlag (flag_defer flags) _); simpl; try done; intros _; vm_compute; done.
Qed.

(** A run with valid flags on an existing issue, with no driver failure,
    creates the review the flags ask for and ends without error. *)
Lemma reviewCmd_accepts env fl now issueID flags s :
  CheckReadonly env "review" = None → store_is_sqlite env = true →
  (∀ site, fl site = None) →
  valid_flags env flags →
  is_Some (issues s !! issueID) → reviews_seq s < max_int64 →
  ∃ s' review',
    CreateReview fl now (asked_review issueID flags) (actor_name env) s =
      (s', review', None) ∧
    fatal_error (reviewCmd env fl now issueID flags s) = None ∧
    final_store (reviewCmd env fl now issueID flags s) = s' ∧
    flush_scheduled (reviewCmd env fl now issueID flags s) = true ∧
    store_calls (reviewCmd env fl now issueID flags s) =
      [CallGetIssue issueID;
       CallCreateReview (asked_review issueID flags) (actor_name env)].
Proof.
  intros Hro Hsql Hfl (Hcount & Hrev & Hvalid) [row Hrow] Hseq.
  destruct (CreateReview_succeeds fl now (asked_review issueID flags)
              (actor_name env) s) as (s' & review' & Hrun).
  { intros; apply Hfl. }
  { by apply asked_outcome_admitted. }
  { right. simpl. eauto. }
  { done. }
  exists s', review'. split; [done|].
  unfold reviewCmd, GetIssue.
  fold (asked_count flags) (asked_reviewer flags) (asked_type flags)
       (asked_outcome flags) (asked_notes flags).
  fold (asked_review issueID flags).
  rewrite Hro, Hcount, Hvalid, Hfl, Hrow, Hsql, Hrun. simpl.
  rewrite bool_decide_eq_false_2 by done. done.
Qed.

(** ** The review type *)

(** A run with a review type that is not valid ends at the validation, with
    the message for the type when the earlier checks pass. *)
Lemma reviewCmd_invalid_type env fl now issueID flags s :
  IsValid env (asked_type flags) = false →
  ∃ msg,
    reviewCmd env fl now issueID flags s = mkRun (Some msg) [] [] false s ∧
    (CheckReadonly env "review" = None →
     asked_count flags = 1%nat → asked_reviewer flags ≠ "" →
     msg = "invalid review type " +:+ quote env (asked_type flags) +:+
           " (valid: plan, implementation, security)").
Proof.
  intros Hinvalid. unfold reviewCmd, FatalError.
  fold (asked_count flags) (asked_reviewer flags) (asked_type flags).
  rewrite Hinvalid.
  destruct (CheckReadonly env "review") as [ro|]; [by eexists|].
  repeat case_bool_decide; simpl; eexists; (split; [reflexivity|]);
    intros _ ? ?; try done; lia.
Qed.

(** C8.  With the review types of the specification as [IsValid]: a run
    that leaves [--type] out reviews with type "plan"; a run whose type is
    plan, implementation, security or custom passes the validation, and the
    review it creates has that type; a run with any other type ends in the
    validation error for the type, before any call on the store. *)
Theorem review_type_validation env fl now issueID flags s :
  (∀ t, IsValid env t = ReviewType_IsValid t) →
  let r := reviewCmd env fl now issueID flags s in
  (flag_type flags = None → asked_type flags = "plan") ∧
  (asked_type flags ∈ review_types →
   CheckReadonly env "review" = None → store_is_sqlite env = true →
   (∀ site, fl site = None) →
   asked_count flags = 1%nat → asked_reviewer flags ≠ "" →
   is_Some (issues s !! issueID) → reviews_seq s < max_int64 →
   fatal_error r = None ∧
   ∃ row, reviews (final_store r) = reviews s ++ [row] ∧
          issue_id row = issueID ∧ review_type row = asked_type flags) ∧
  (asked_type flags ∉ review_types →
   ∃ msg, r = mkRun (Some msg) [] [] false s ∧
          (CheckReadonly env "review" = None →
           asked_count flags = 1%nat → asked_reviewer flags ≠ "" →
           msg = "invalid review type " +:+ quote env (asked_type flags) +:+
                 " (valid: plan, implementation, security)")).
Proof.
  intros Hvalid r. subst r. split_and!.
  - unfold asked_type. by intros ->.
  - intros Hin Hro Hsql Hfl Hcount Hrev Hissue Hseq.
    destruct (reviewCmd_accepts env fl now issueID flags s)
      as (s' & review' & Hrun & Herr & Hfin & _); try done.
    { split_and!; try done. rewrite Hvalid.
      by apply bool_decide_eq_true. }
    split; [done|]. rewrite Hfin.
    apply CreateReview_ok in Hrun as (Hr & _). eexists. split; [exact Hr|]. done.
  - intros Hnot. apply reviewCmd_invalid_type.
    rewrite Hvalid. by apply bool_decide_eq_false.
Qed.

Lemma review_type_validation_witness :
  (∀ t, IsValid sample_env t = ReviewType_IsValid t) ∧
  asked_type security_flags ∈ review_types ∧
  fatal_error (reviewCmd sample_env no_faults 9 "bd-1" security_flags sample_store)
    = None ∧
  ∃ row,
    reviews (final_store (reviewCmd sample_env no_faults 9 "bd-1" security_flags
                            sample_store)) = reviews sample_store ++ [row] ∧
    issue_id row = "bd-1" ∧ review_type row = asked_type security_flags.
Proof.
  assert (asked_type security_flags ∈ review_types) as Hin
    by (unfold review_types; simpl; set_solver).
  split; [reflexivity|]. split; [exact Hin|].
  apply (review_type_validation sample_env no_faults 9 "bd-1" security_flags
           sample_store); try reflexivity; try exact Hin.
  - discriminate.
  - simpl. rewrite lookup_singleton_eq. by eexists.
Defined.

(** ** Reviewing again *)

Lemma store_after_cons s r rs :
  store_after s (r :: rs) = store_after (final_store r) rs.
Proof.
  unfold store_after. destruct rs as [|r' rs]; [done|].
  rewrite last_cons_cons. destruct (last (r' :: rs)) eqn:Hlast; [done|].
  by apply last_None in Hlast.
Qed.

(** One accepted run: the row it adds and the columns it writes. *)
Lemma review_run_step env issueID inv s :
  CheckReadonly env "review" = None → store_is_sqlite env = true →
  valid_invocation env inv →
  is_Some (issues s !! issueID) → reviews_seq s < max_int64 →
  ∃ s1,
    final_store (reviewCmd env (inv_faults inv) (inv_now inv) issueID
                   (inv_flags inv) s) = s1 ∧
    fatal_error (reviewCmd env (inv_faults inv) (inv_now inv) issueID
                   (inv_flags inv) s) = None ∧
    reviews s1 = reviews s ++ asked_rows (reviews_seq s) issueID [inv] ∧
    reviews_seq s1 = reviews_seq s + 1 ∧
    ∃ irow, issues s1 !! issueID = Some irow ∧
            review_status irow = asked_outcome (inv_flags inv) ∧
            reviewed_by irow = Some (asked_reviewer (inv_flags inv)) ∧
            reviewed_at irow = Some (inv_now inv).
Proof.
  intros Hro Hsql [Hfl Hflags] Hissue Hseq.
  destruct (reviewCmd_accepts env (inv_faults inv) (inv_now inv) issueID
              (inv_flags inv) s) as (s1 & review1 & Hrun & Herr & Hfin & _);
    try done.
  exists s1. split_and!; try done.
  - by apply CreateReview_ok in Hrun as (-> & _).
  - by apply CreateReview_ok in Hrun as (_ & -> & _).
  - apply CreateReview_ok in Hrun as (_ & _ & Hi & _).
    destruct Hissue as [row Hrow]. simpl in Hi. rewrite Hrow in Hi.
    rewrite Hi, lookup_insert_eq. eexists. split_and!; done.
Qed.

(** C5.  Reviewing is re-enterable.  Take any issue, whatever its review
    status, and any runs of [bd review] on it with valid flags (for example
    [--approve], then [--revise]).  Every run succeeds; each adds one row
    to [reviews], in the order of the runs and dated by its run; afterwards
    the review columns of the issue are the outcome, reviewer and time of
    the last row; and when the times of the rows never decrease,
    GetReviewsByIssue returns the reviews in the order of the runs. *)
Theorem review_is_reenterable env issueID invs s :
  CheckReadonly env "review" = None → store_is_sqlite env = true →
  is_Some (issues s !! issueID) →
  Forall (valid_invocation env) invs →
  reviews_seq s + Z.of_nat (length invs) ≤ max_int64 →
  let runs := review_runs env issueID invs s in
  let s' := store_after s runs in
  let mine := filter (λ r, issue_id r = issueID) (reviews s') in
  Forall (λ r, fatal_error r = None) runs ∧
  length runs = length invs ∧
  reviews s' = reviews s ++ asked_rows (reviews_seq s) issueID invs ∧
  (∀ inv, last invs = Some inv →
     ∃ irow rrow,
       issues s' !! issueID = Some irow ∧ last (reviews s') = Some rrow ∧
       review_status irow = outcome rrow ∧
       reviewed_by irow = Some (reviewer rrow) ∧
       reviewed_at irow = Some (created_at rrow) ∧
       outcome rrow = asked_outcome (inv_flags inv) ∧
       reviewer rrow = asked_reviewer (inv_flags inv) ∧
       created_at rrow = inv_now inv) ∧
  (chronological mine →
     GetReviewsByIssue no_faults s' issueID = (scan_review <$> mine, None)).
Proof.
  intros Hro Hsql Hissue Hvalid Hseq runs s' mine. subst runs s' mine.
  split_and!; [| | | |].
  5:{ intros Hchron. rewrite GetReviewsByIssue_no_faults by done.
      unfold select_reviews_by_issue. by rewrite order_by_created_at_id. }
  all: revert s Hissue Hseq;
    induction Hvalid as [|inv invs Hinv Hrest IH]; intros s Hissue Hseq.
  all: try (destruct (review_run_step env issueID inv s)
              as (s1 & Hfin & Herr & Hr & Hs & irow & Hi & Hst & Hby & Hat);
            [done | done | done | done | simpl in Hseq; lia |]).
  all: try (assert (is_Some (issues s1 !! issueID)) as Hissue1 by (by eexists));
       try (assert (reviews_seq s1 + Z.of_nat (length invs) ≤ max_int64) as Hseq1
              by (rewrite Hs; simpl in Hseq; lia)).
  - constructor.
  - simpl. constructor; [done|]. rewrite Hfin. by apply IH.
  - done.
  - simpl. f_equal. rewrite Hfin. by apply IH.
  - simpl. by rewrite app_nil_r.
  - cbn [review_runs asked_rows]. rewrite store_after_cons, Hfin, IH by done.
    rewrite Hr, Hs, <- app_assoc. done.
  - done.
  - intros last_inv Hlast. cbn [review_runs].
    rewrite store_after_cons, Hfin.
    destruct invs as [|inv2 invs].
    + injection Hlast as <-. cbn [review_runs store_after last fmap option_fmap
        option_map default].
      rewrite Hr. cbn [asked_rows]. rewrite last_snoc.
      eexists _, _. split_and!; try done.
    + rewrite last_cons_cons in Hlast. by apply IH.
Qed.

Lemma review_is_reenterable_witness :
  Forall (valid_invocation sample_env) approve_then_revise ∧
  Forall (λ r, fatal_error r = None)
    (review_runs sample_env "bd-1" approve_then_revise sample_store) ∧
  GetReviewsByIssue no_faults
    (store_after sample_store
       (review_runs sample_env "bd-1" approve_then_revise sample_store)) "bd-1" =
    ([mkReview 1 "bd-1" "plan" "approved" "alice" "" 9;
      mkReview 2 "bd-1" "plan" "needs_revision" "carol" "tests missing" 12], None) ∧
  issues
    (store_after sample_store
       (review_runs sample_env "bd-1" approve_then_revise sample_store)) !! "bd-1" =
    Some (mkIssueRow "Add login" "needs_revision" (Some "carol") (Some 12) 12).
Proof.
  assert (Forall (valid_invocation sample_env) approve_then_revise) as Hvalid.
  { repeat constructor; done. }
  split; [exact Hvalid|].
  destruct (review_is_reenterable sample_env "bd-1" approve_then_revise
              sample_store) as (Hok & _ & Hrows & Hlast & Hget).
  - reflexivity.
  - reflexivity.
  - simpl. rewrite lookup_singleton_eq. by eexists.
  - exact Hvalid.
  - vm_compute. discriminate.
  - split; [exact Hok|]. split.
    + rewrite Hget; [vm_compute; reflexivity|].
      rewrite Hrows. vm_compute. repeat constructor; discriminate.
    + vm_compute. reflexivity.
Defined.


(** * Further properties of reviews.go *)

(** ** Reading back what CreateReview wrote *)

(** X1.  After a successful CreateReview, GetReviewsByIssue on the reviewed issue
    returns the caller's review as the call left it: with the new rowid as
    its ID and with its timestamp filled in.  When the rowids of the table
    are in order, that ID is above the ID of every review read before. *)
Theorem CreateReview_read_back fl now review actor_ s s' review' :
  CreateReview fl now review actor_ s = (s', review', None) →
  review' ∈ (GetReviewsByIssue no_faults s' (IssueID review)).1 ∧
  review' =
    mkReview (reviews_seq s + 1) (IssueID review) (ReviewType review)
      (Outcome review) (Reviewer review) (Notes review)
      (if IsZero (CreatedAt review) then now else CreatedAt review) ∧
  (reviews_ids_ok s →
   ∀ X old, old ∈ (GetReviewsByIssue no_faults s X).1 → ID old < ID review').
Proof.
  intros Hrun.
  pose proof (CreateReview_select _ _ _ _ _ _ _ (IssueID review) Hrun) as [_ Hnew].
  rewrite decide_True in Hnew by done. destruct Hnew as (row & Hrow & Hperm).
  pose proof Hrun as Hok.
  apply CreateReview_ok in Hok as (_ & _ & _ & _ & _ & _ & _ & _ & Hrev).
  split_and!.
  - rewrite GetReviewsByIssue_no_faults by done. simpl.
    rewrite <- Hrow. apply list_elem_of_fmap_2. rewrite Hperm. set_solver.
  - rewrite Hrev. by destruct review.
  - intros [Hle _] X old. rewrite GetReviewsByIssue_no_faults by done. simpl.
    intros (orow & -> & Hin)%list_elem_of_fmap.
    unfold select_reviews_by_issue in Hin.
    rewrite order_by_created_at_perm in Hin.
    apply list_elem_of_filter in Hin as [_ Hin].
    rewrite Forall_forall in Hle. specialize (Hle _ Hin).
    rewrite Hrev. simpl. lia.
Qed.

Lemma CreateReview_read_back_witness :
  CreateReview no_faults 9 sample_review "bob" sample_store =
    ((CreateReview no_faults 9 sample_review "bob" sample_store).1.1,
     (CreateReview no_faults 9 sample_review "bob" sample_store).1.2, None) ∧
  (CreateReview no_faults 9 sample_review "bob" sample_store).1.2 ∈
    (GetReviewsByIssue no_faults
       (CreateReview no_faults 9 sample_review "bob" sample_store).1.1 "bd-1").1.
Proof.
  assert (CreateReview no_faults 9 sample_review "bob" sample_store =
    ((CreateReview no_faults 9 sample_review "bob" sample_store).1.1,
     (CreateReview no_faults 9 sample_review "bob" sample_store).1.2, None)) as Hrun
    by (vm_compute; reflexivity).
  split; [exact Hrun|].
  exact (proj1 (CreateReview_read_back _ _ _ _ _ _ _ Hrun)).
Defined.

(** ** Row identifiers *)

Lemma update_session_row_id session row :
  session_id (update_session_row session row) = session_id row.
Proof. unfold update_session_row. by case_decide. Qed.

Lemma snoc_ids_ok {A} (key : A → Z) (rows : list A) (seq : Z) (row : A) :
  Forall (λ r, key r ≤ seq) rows → NoDup (key <$> rows) → key row = seq + 1 →
  Forall (λ r, key r ≤ seq + 1) (rows ++ [row]) ∧ NoDup (key <$> rows ++ [row]).
Proof.
  intros Hle Hnd Hkey. split.
  - apply Forall_app. split; [|repeat constructor; lia].
    eapply Forall_impl; [exact Hle|]. simpl. intros; lia.
  - rewrite fmap_app. apply NoDup_app. split_and!; [done| |apply NoDup_singleton].
    intros k (r & -> & Hr)%list_elem_of_fmap Hk.
    apply list_elem_of_singleton in Hk. rewrite Forall_forall in Hle.
    specialize (Hle _ Hr). simpl in *. lia.
Qed.

(** X2.  Every write operation of reviews.go, whether it succeeds or fails,
    keeps the rowids of [reviews] and of [review_sessions] distinct and not
    above their AUTOINCREMENT counters. *)
Theorem rowids_stay_ok fl op s :
  reviews_ids_ok s → sessions_ids_ok s →
  reviews_ids_ok (apply_op fl op s) ∧ sessions_ids_ok (apply_op fl op s).
Proof.
  intros [Hrle Hrnd] [Hsle Hsnd].
  destruct op as [now review actor_ | now session | session]; simpl.
  - destruct (CreateReview fl now review actor_ s) as [[s' review'] [e|]] eqn:Hrun.
    + by apply CreateReview_err in Hrun as ->.
    + apply CreateReview_ok in Hrun
        as (Hr & Hs & _ & _ & _ & Hss & Hsq & _). simpl.
      unfold reviews_ids_ok, sessions_ids_ok. rewrite Hr, Hs, Hss, Hsq.
      split; [|done]. by apply snoc_ids_ok.
  - unfold CreateReviewSession.
    repeat case_match; simpl; try done;
      (split; [done|]); unfold sessions_ids_ok; simpl; by apply snoc_ids_ok.
  - unfold UpdateReviewSession. case_match; simpl; [done|].
    split; [done|]. unfold sessions_ids_ok. simpl.
    rewrite <- list_fmap_compose.
    rewrite (list_fmap_ext (session_id ∘ update_session_row session) session_id
               (review_sessions s))
      by (intros ???; apply update_session_row_id).
    split; [|done]. apply Forall_fmap.
    eapply Forall_impl; [exact Hsle|]. intros row. simpl.
    by rewrite update_session_row_id.
Qed.

Lemma rowids_stay_ok_witness :
  reviews_ids_ok sample_store ∧ sessions_ids_ok sample_store ∧
  reviews_ids_ok (apply_op no_faults (OpCreateReview 9 sample_review "bob")
                    sample_store).
Proof.
  assert (reviews_ids_ok sample_store) as Hr by (split; constructor).
  assert (sessions_ids_ok sample_store) as Hs by (split; constructor).
  split; [exact Hr|]. split; [exact Hs|].
  exact (proj1 (rowids_stay_ok no_faults (OpCreateReview 9 sample_review "bob")
                  sample_store Hr Hs)).
Defined.

(** ** Edge cases of CreateReview *)

(** X3.  For an issue that table [issues] does not hold: where foreign keys are
    enforced, CreateReview fails at the INSERT and changes nothing; where
    they are not, a call that succeeds stores the review, the marker and the
    event, and leaves [issues] as it was, since the UPDATE matches no row. *)
Theorem CreateReview_unknown_issue fl now review actor_ s :
  issues s !! IssueID review = None →
  (foreign_keys s = true →
   fl SiteBegin = None → fl SiteInsertReview = None →
   reviews_outcome_check (Outcome review) = true →
   ∃ review' d,
     CreateReview fl now review actor_ s =
       (s, review', Some ("failed to insert review: " +:+ d))) ∧
  (foreign_keys s = false →
   ∀ s' review',
     CreateReview fl now review actor_ s = (s', review', None) →
     issues s' = issues s ∧
     length (reviews s') = S (length (reviews s)) ∧
     length (events s') = S (length (events s)) ∧
     mkDirtyRow (IssueID review) now ∈ dirty_issues s').
Proof.
  intros Hnone. split.
  - intros Hfk Hb Hi Hoc. tx_unfold. rewrite Hb, Hi. simpl.
    destruct (IsZero (CreatedAt review)); simpl;
      rewrite Hoc, Hfk, Hnone; simpl; eauto.
  - intros Hfk s' review' Hrun.
    apply CreateReview_ok in Hrun as (Hr & _ & Hi & Hd & He & _).
    rewrite Hnone in Hi. rewrite Hr, He, !length_app. simpl.
    split_and!; [done | lia | lia |].
    rewrite Hd. clear. induction (dirty_issues s) as [|row rows IH]; simpl.
    + set_solver.
    + case_decide; set_solver.
Qed.

Lemma CreateReview_unknown_issue_witness :
  issues sample_store !! IssueID stray_review = None ∧
  ∃ review' d,
    CreateReview no_faults 9 stray_review "bob" sample_store =
      (sample_store, review', Some ("failed to insert review: " +:+ d)).
Proof.
  assert (issues sample_store !! IssueID stray_review = None) as Hnone
    by (vm_compute; reflexivity).
  split; [exact Hnone|].
  apply (proj1 (CreateReview_unknown_issue no_faults 9 stray_review "bob"
                  sample_store Hnone)); reflexivity.
Defined.

(** X4.  CreateReview refuses an outcome other than approved, needs_revision and
    deferred, whatever else happens: it returns an error and the database
    is unchanged. *)
Theorem CreateReview_refuses_outcome fl now review actor_ s :
  reviews_outcome_check (Outcome review) = false →
  ∃ review' e, CreateReview fl now review actor_ s = (s, review', Some e).
Proof.
  intros Hoc.
  destruct (CreateReview fl now review actor_ s) as [[s' review'] [e|]] eqn:Hrun.
  - apply CreateReview_err in Hrun as ->. eauto.
  - exfalso. tx_unfold. destruct review as [i iss ty oc rv nt ca].
    simpl in Hoc. destruct s.
    cbn -[reviews_outcome_check IsZero] in Hrun.
    destruct (IsZero ca); cbn -[reviews_outcome_check] in Hrun;
      rewrite Hoc in Hrun; tx_cases.
Qed.

Lemma CreateReview_refuses_outcome_witness :
  reviews_outcome_check (Outcome odd_review) = false ∧
  ∃ review' e,
    CreateReview no_faults 9 odd_review "bob" sample_store =
      (sample_store, review', Some e).
Proof.
  split; [reflexivity|].
  apply (CreateReview_refuses_outcome no_faults 9 odd_review "bob" sample_store).
  reflexivity.
Defined.

(** X5.  The error of CreateReview names the statement that failed: when the
    driver fails first at one of the five statements, on a review the
    tables admit, the error is the driver's message behind the prefix of
    that statement, and the database is unchanged. *)
Theorem CreateReview_error_names_statement fl now review actor_ s site e :
  site ∈ statement_sites →
  (∀ x, x ∈ sites_before site → fl x = None) → fl site = Some e →
  reviews_outcome_check (Outcome review) = true →
  foreign_keys s = false ∨ is_Some (issues s !! IssueID review) →
  reviews_seq s < max_int64 →
  ∃ review',
    CreateReview fl now review actor_ s =
      (s, review', Some (CreateReview_error_prefix site +:+ e)).
Proof.
  intros Hsite Hbefore Hfail Hoc Hfk Hseq.
  assert (Hst := outcome_check_status_check _ Hoc).
  assert (foreign_keys s && bool_decide (issues s !! IssueID review = None) = false)
    as Hfk'.
  { destruct Hfk as [-> | [row Hrow]]; [done |].
    rewrite Hrow, bool_decide_eq_false_2 by done. apply andb_false_r. }
  assert ((max_int64 <=? reviews_seq s) = false) as Hseq' by (apply Z.leb_gt; done).
  assert (∀ x, bool_decide (x ∈ sites_before site) = true → fl x = None) as Hb
    by (intros ? ?%bool_decide_eq_true; auto).
  unfold statement_sites in Hsite.
  destruct review as [i iss ty oc rv nt ca]. simpl in *.
  destruct s as [iss_ rvs seq dty evs sess sseq fk]. simpl in *.
  repeat (apply elem_of_cons in Hsite as [->|Hsite]);
    [..|by apply elem_of_nil in Hsite];
    tx_unfold; simpl in *;
    repeat match goal with
           | |- context [fl ?x] =>
               first [rewrite Hfail | rewrite (Hb x eq_refl)]
           end;
    destruct (IsZero ca); simpl; rewrite ?Hoc, ?Hfk', ?Hseq'; simpl;
    repeat match goal with
           | |- context [fl ?x] =>
               first [rewrite Hfail | rewrite (Hb x eq_refl)]
           end; simpl;
    try (destruct (iss_ !! iss); simpl; rewrite ?Hst; simpl);
    repeat match goal with
           | |- context [fl ?x] =>
               first [rewrite Hfail | rewrite (Hb x eq_refl)]
           end; simpl; eauto.
Qed.

Lemma CreateReview_error_names_statement_witness :
  SiteMarkDirty ∈ statement_sites ∧
  ∃ review',
    CreateReview (fail_at SiteMarkDirty) 9 sample_review "bob" sample_store =
      (sample_store, review', Some "failed to mark issue dirty: disk I/O error").
Proof.
  assert (SiteMarkDirty ∈ statement_sites) as Hin
    by (unfold statement_sites; set_solver).
  split; [exact Hin|].
  apply (CreateReview_error_names_statement (fail_at SiteMarkDirty) 9
           sample_review "bob" sample_store SiteMarkDirty "disk I/O error" Hin).
  - intros x Hx. unfold sites_before in Hx.
    repeat (apply elem_of_cons in Hx as [->|Hx]); try reflexivity.
    by apply elem_of_nil in Hx.
  - reflexivity.
  - reflexivity.
  - right. simpl. rewrite lookup_singleton_eq. by eexists.
  - reflexivity.
Defined.

(** X6.  The caller's struct: CreateReview writes its ID and a zero CreatedAt, and
    nothing else.  A timestamp the caller supplied is kept, and when the
    transaction cannot begin the struct is left as it was. *)
Theorem CreateReview_caller_struct fl now review actor_ s s' review' err :
  CreateReview fl now review actor_ s = (s', review', err) →
  IssueID review' = IssueID review ∧ ReviewType review' = ReviewType review ∧
  Outcome review' = Outcome review ∧ Reviewer review' = Reviewer review ∧
  Notes review' = Notes review ∧
  (CreatedAt review ≠ 0 → CreatedAt review' = CreatedAt review) ∧
  (fl SiteBegin ≠ None → review' = review) ∧
  (fl SiteBegin = None → CreatedAt review = 0 → CreatedAt review' = now) ∧
  (ID review' = ID review ∨ ID review' = reviews_seq s + 1).
Proof.
  intros Hrun. tx_unfold. destruct review as [i iss ty oc rv nt ca].
  destruct s. cbn -[IsZero] in Hrun.
  destruct (Z.eqb_spec ca 0) as [->|Hca]; unfold IsZero in Hrun.
  - rewrite Z.eqb_refl in Hrun. tx_cases; split_and!; auto; done.
  - rewrite (proj2 (Z.eqb_neq ca 0) Hca) in Hrun.
    tx_cases; split_and!; auto; done.
Qed.

Lemma CreateReview_caller_struct_witness :
  CreateReview (fail_at SiteBegin) 9 dated_review "bob" sample_store =
    (sample_store, dated_review,
     Some "failed to begin transaction: disk I/O error") ∧
  CreatedAt dated_review = 5.
Proof.
  assert (CreateReview (fail_at SiteBegin) 9 dated_review "bob" sample_store =
    (sample_store, dated_review,
     Some "failed to begin transaction: disk I/O error")) as Hrun
    by (vm_compute; reflexivity).
  split; [exact Hrun|].
  destruct (CreateReview_caller_struct _ _ _ _ _ _ _ _ Hrun)
    as (_ & _ & _ & _ & _ & Hkeep & _).
  symmetry. apply Hkeep. discriminate.
Defined.

(** ** What the write operations leave alone *)

Lemma upsert_dirty_keeps issue t rows :
  dirty_issue_id <$> rows ⊆ dirty_issue_id <$> upsert_dirty issue t rows.
Proof.
  rewrite upsert_dirty_keys. case_decide; [done|].
  intros x Hx. apply elem_of_app. by left.
Qed.

(** X7.  No write operation of reviews.go removes an audit event, removes a
    dirty marker, or creates, deletes or retitles an issue; and the two
    session operations change nothing but table [review_sessions]. *)
Theorem writes_keep_the_trail fl op s :
  events s `prefix_of` events (apply_op fl op s) ∧
  dirty_issue_id <$> dirty_issues s ⊆
    dirty_issue_id <$> dirty_issues (apply_op fl op s) ∧
  dom (issues (apply_op fl op s)) = dom (issues s) ∧
  title <$> issues (apply_op fl op s) = title <$> issues s ∧
  match op with
  | OpCreateReview _ _ _ =>
      review_sessions (apply_op fl op s) = review_sessions s
  | _ =>
      issues (apply_op fl op s) = issues s ∧
      reviews (apply_op fl op s) = reviews s ∧
      dirty_issues (apply_op fl op s) = dirty_issues s ∧
      events (apply_op fl op s) = events s
  end.
Proof.
  destruct op as [now review actor_ | now session | session]; simpl.
  - destruct (CreateReview fl now review actor_ s) as [[s' review'] [e|]] eqn:Hrun.
    + by apply CreateReview_err in Hrun as ->.
    + apply CreateReview_ok in Hrun as (_ & _ & Hi & Hd & He & Hss & _). simpl.
      rewrite Hi, Hd, He, Hss. split_and!; try done.
      * by apply prefix_app_r.
      * apply upsert_dirty_keeps.
      * destruct (issues s !! IssueID review) eqn:Hrow; [|done].
        apply dom_insert_lookup_L. by eexists.
      * destruct (issues s !! IssueID review) as [row|] eqn:Hrow; [|done].
        rewrite fmap_insert. simpl. apply insert_id.
        by rewrite lookup_fmap, Hrow.
  - unfold CreateReviewSession. repeat case_match; simpl; done.
  - unfold UpdateReviewSession. case_match; simpl; done.
Qed.

(** ** Review sessions *)

Lemma list_find_snoc_fresh {A} (P : A → Prop) `{!∀ x, Decision (P x)}
    (l : list A) (x : A) :
  Forall (λ y, ¬ P y) l → P x → list_find P (l ++ [x]) = Some (length l, x).
Proof.
  intros Hl Hx. rewrite list_find_app_r by by apply list_find_None.
  simpl. rewrite decide_True by done. done.
Qed.

(** X8.  A session that CreateReviewSession stored is read back by
    GetReviewSession under the ID the call put into the caller's struct:
    with its root issue, reviewer, start time (the clock's when the caller
    gave none) and summary, and with no completion time and all counters
    zero, whatever the caller's struct held for those. *)
Theorem CreateReviewSession_read_back fl now session s s' session' :
  sessions_ids_ok s →
  CreateReviewSession fl now session s = (s', session', None) →
  GetReviewSession no_faults s' (sess_ID session') =
    (Some (as_created session'), None) ∧
  sess_ID session' = review_sessions_seq s + 1 ∧
  RootIssueID session' = RootIssueID session ∧
  sess_Reviewer session' = sess_Reviewer session ∧
  Summary session' = Summary session ∧
  StartedAt session' =
    (if IsZero (StartedAt session) then now else StartedAt session).
Proof.
  intros [Hle _] Hrun. unfold CreateReviewSession in Hrun.
  assert (∀ rowid, rowid = review_sessions_seq s + 1 →
            Forall (λ y, ¬ session_id y = rowid) (review_sessions s)) as Hfresh.
  { intros rowid ->. eapply Forall_impl; [exact Hle|]. simpl. intros; lia. }
  destruct (fl SiteInsertSession); [done|].
  destruct (foreign_keys s && _); [done|].
  destruct (max_int64 <=? _); [done|].
  destruct (fl SiteSessionId); [done|]. injection Hrun as <- <-.
  unfold GetReviewSession. simpl.
  rewrite list_find_snoc_fresh; [|by apply Hfresh|done]. simpl.
  by destruct (IsZero (StartedAt session)).
Qed.

Lemma CreateReviewSession_read_back_witness :
  sessions_ids_ok sample_store ∧
  GetReviewSession no_faults session_store 1 =
    (Some (mkReviewSession 1 "bd-1" "alice" 9 None "first pass" 0 0 0 0), None).
Proof.
  assert (sessions_ids_ok sample_store) as Hok by (split; constructor).
  split; [exact Hok|].
  exact (proj1 (CreateReviewSession_read_back no_faults 9 sample_session
                  sample_store session_store
                  (mkReviewSession 1 "bd-1" "alice" 9 None "first pass" 0 0 0 0)
                  Hok eq_refl)).
Defined.

Lemma GetReviewSession_found s id_ session :
  GetReviewSession no_faults s id_ = (Some session, None) →
  ∃ i row, list_find (λ r, session_id r = id_) (review_sessions s) = Some (i, row) ∧
           session = scan_session row ∧ session_id row = id_.
Proof.
  unfold GetReviewSession. simpl.
  destruct (list_find _ _) as [[i row]|] eqn:Hfind; [|done].
  intros [= <-]. exists i, row. split_and!; try done.
  by apply list_find_Some in Hfind as (_ & ? & _).
Qed.

(** X9.  After UpdateReviewSession, a session that could be read before reads
    back with the completion time, summary and counters of the caller's
    struct, and with the root issue, reviewer and start time it had: the
    UPDATE does not write those, whatever the struct holds for them. *)
Theorem UpdateReviewSession_read_back fl session s old :
  fl SiteUpdateSession = None →
  GetReviewSession no_faults s (sess_ID session) = (Some old, None) →
  (UpdateReviewSession fl session s).2 = None ∧
  GetReviewSession no_faults (UpdateReviewSession fl session s).1
      (sess_ID session) =
    (Some (mkReviewSession (sess_ID session) (RootIssueID old)
             (sess_Reviewer old) (StartedAt old) (CompletedAt session)
             (Summary session) (ItemsReviewed session) (ItemsApproved session)
             (ItemsNeedsRevision session) (ItemsDeferred session)), None).
Proof.
  intros Hfl (i & row & Hfind & -> & Hid)%GetReviewSession_found.
  unfold UpdateReviewSession. rewrite Hfl. simpl. split; [done|].
  unfold GetReviewSession. simpl. rewrite list_find_fmap.
  rewrite (list_find_ext _ (λ r, session_id r = sess_ID session))
    by (intros r; simpl; by rewrite update_session_row_id).
  rewrite Hfind. simpl. unfold update_session_row.
  rewrite decide_True by done. by rewrite Hid.
Qed.

Lemma UpdateReviewSession_read_back_witness :
  GetReviewSession no_faults session_store (sess_ID completed_session) =
    (Some (mkReviewSession 1 "bd-1" "alice" 9 None "first pass" 0 0 0 0), None) ∧
  GetReviewSession no_faults
      (UpdateReviewSession no_faults completed_session session_store).1 1 =
    (Some (mkReviewSession 1 "bd-1" "alice" 9 (Some 20) "done" 3 2 1 0), None).
Proof.
  assert (GetReviewSession no_faults session_store (sess_ID completed_session) =
    (Some (mkReviewSession 1 "bd-1" "alice" 9 None "first pass" 0 0 0 0), None))
    as Hget by (vm_compute; reflexivity).
  split; [exact Hget|].
  exact (proj2 (UpdateReviewSession_read_back no_faults completed_session
                  session_store _ eq_refl Hget)).
Defined.

(** X10.  UpdateReviewSession for an ID that no session has is not an error: it
    returns nil and the database is unchanged. *)
Theorem UpdateReviewSession_unknown_id fl session s :
  fl SiteUpdateSession = None →
  GetReviewSession no_faults s (sess_ID session) = (None, None) →
  UpdateReviewSession fl session s = (s, None).
Proof.
  intros Hfl Hget. unfold UpdateReviewSession. rewrite Hfl. f_equal.
  unfold GetReviewSession in Hget. simpl in Hget.
  destruct (list_find _ _) as [[i row]|] eqn:Hfind; [done|].
  apply list_find_None in Hfind.
  assert (update_session_row session <$> review_sessions s = review_sessions s)
    as ->.
  { clear Hget. induction Hfind as [|row rows Hrow _ IH]; [done|].
    rewrite fmap_cons, IH. f_equal. unfold update_session_row.
    by rewrite decide_False. }
  by destruct s.
Qed.

Lemma UpdateReviewSession_unknown_id_witness :
  GetReviewSession no_faults sample_store (sess_ID completed_session) =
    (None, None) ∧
  UpdateReviewSession no_faults completed_session sample_store =
    (sample_store, None).
Proof.
  assert (GetReviewSession no_faults sample_store (sess_ID completed_session) =
          (None, None)) as Hget by (vm_compute; reflexivity).
  split; [exact Hget|].
  exact (UpdateReviewSession_unknown_id no_faults completed_session sample_store
           eq_refl Hget).
Defined.

(** X11.  CreateReviewSession runs outside a transaction.  When it returns an
    error the caller's ID is not set, and the database is unchanged unless
    the failure was that of [LastInsertId]: then the new session is in the
    table although the call failed.  Where foreign keys are enforced, a
    session for an unknown root issue is refused. *)
Theorem CreateReviewSession_on_error fl now session s s' session' e :
  CreateReviewSession fl now session s = (s', session', Some e) →
  sess_ID session' = sess_ID session ∧
  (s' = s ∨
   ∃ d row,
     fl SiteSessionId = Some d ∧ e = "failed to get session id: " +:+ d ∧
     review_sessions s' = review_sessions s ++ [row] ∧
     session_id row = review_sessions_seq s + 1 ∧
     root_issue_id row = RootIssueID session) ∧
  (fl SiteSessionId = None →
   ∃ d, e = "failed to create review session: " +:+ d) ∧
  (foreign_keys s = true → issues s !! RootIssueID session = None →
   s' = s).
Proof.
  unfold CreateReviewSession. intros Hrun.
  destruct (fl SiteInsertSession) as [d|] eqn:Hins.
  { injection Hrun as <- <- <-. split_and!; eauto.
    by destruct (IsZero (StartedAt session)). }
  destruct (foreign_keys s && _) eqn:Hfk.
  { injection Hrun as <- <- <-. split_and!; eauto.
    by destruct (IsZero (StartedAt session)). }
  destruct (max_int64 <=? _).
  { injection Hrun as <- <- <-. split_and!; eauto.
    by destruct (IsZero (StartedAt session)). }
  destruct (fl SiteSessionId) as [d|] eqn:Hid; [|done].
  injection Hrun as <- <- <-. split_and!.
  - by destruct (IsZero (StartedAt session)).
  - right. exists d. eexists. split_and!; try done.
    by destruct (IsZero (StartedAt session)).
  - done.
  - intros Hon Hnone. exfalso.
    assert (RootIssueID
              (if IsZero (StartedAt session)
               then mkReviewSession (sess_ID session) (RootIssueID session)
                      (sess_Reviewer session) now (CompletedAt session)
                      (Summary session) (ItemsReviewed session)
                      (ItemsApproved session) (ItemsNeedsRevision session)
                      (ItemsDeferred session)
               else session) = RootIssueID session) as Hroot
      by (by destruct (IsZero (StartedAt session))).
    rewrite Hroot, Hon, Hnone in Hfk. done.
Qed.

Lemma CreateReviewSession_on_error_witness :
  CreateReviewSession (fail_at SiteSessionId) 9 sample_session sample_store =
    ((CreateReviewSession (fail_at SiteSessionId) 9 sample_session sample_store).1.1,
     mkReviewSession 0 "bd-1" "alice" 9 None "first pass" 0 0 0 0,
     Some "failed to get session id: disk I/O error") ∧
  length (review_sessions
            (CreateReviewSession (fail_at SiteSessionId) 9 sample_session
               sample_store).1.1) = 1%nat.
Proof.
  assert (CreateReviewSession (fail_at SiteSessionId) 9 sample_session sample_store =
    ((CreateReviewSession (fail_at SiteSessionId) 9 sample_session sample_store).1.1,
     mkReviewSession 0 "bd-1" "alice" 9 None "first pass" 0 0 0 0,
     Some "failed to get session id: disk I/O error")) as Hrun
    by (vm_compute; reflexivity).
  split; [exact Hrun|].
  destruct (CreateReviewSession_on_error _ _ _ _ _ _ _ Hrun)
    as (_ & [Hsame | (d & row & _ & _ & Hrows & _)] & _).
  - exfalso. revert Hsame. vm_compute. discriminate.
  - rewrite Hrows. reflexivity.
Defined.

(** ** The queries with ORDER BY ... DESC LIMIT *)

Section Descending.

Context {A : Type} (key : A → Z) (ins : A → list A → list A).
Hypothesis ins_nil : ∀ r, ins r [] = [r].
Hypothesis ins_cons : ∀ r x l,
  ins r (x :: l) = if key x <=? key r then r :: x :: l else x :: ins r l.

Local Abbreviation after := (λ a b : A, key b ≤ key a).

Lemma ins_desc_perm r l : ins r l ≡ₚ r :: l.
Proof.
  induction l as [|x l IH]; [by rewrite ins_nil|]. rewrite ins_cons.
  case_match; [done|]. rewrite IH. apply Permutation_swap.
Qed.

Lemma foldr_ins_desc_perm l : foldr ins [] l ≡ₚ l.
Proof.
  induction l as [|x l IH]; simpl; [done|]. by rewrite ins_desc_perm, IH.
Qed.

Lemma ins_desc_sorted r l :
  StronglySorted after l → StronglySorted after (ins r l).
Proof.
  induction 1 as [|x l Hl IH Hx]; [rewrite ins_nil; repeat constructor|].
  rewrite ins_cons. destruct (key x <=? key r) eqn:Hle.
  - apply Z.leb_le in Hle. constructor; [by constructor|].
    constructor; [done|]. eapply Forall_impl; [exact Hx|]. simpl. intros; lia.
  - apply Z.leb_gt in Hle. constructor; [done|].
    rewrite ins_desc_perm. constructor; [lia | done].
Qed.

Lemma foldr_ins_desc_sorted l : StronglySorted after (foldr ins [] l).
Proof.
  induction l as [|x l IH]; simpl; [constructor | by apply ins_desc_sorted].
Qed.

End Descending.

Lemma sql_limit_split {A} (limit : Z) (l : list A) :
  ∃ dropped, sql_limit limit l ++ dropped = l ∧
             length (sql_limit limit l) = limited limit (length l).
Proof.
  unfold sql_limit, limited. destruct (limit <? 0).
  - exists []. by rewrite app_nil_r.
  - exists (drop (Z.to_nat limit) l). by rewrite take_drop, length_take.
Qed.

(** X12.  Without driver failures GetReviewHistory returns the most recent
    reviews: the returned rows, followed by those the LIMIT cut off, are
    the reviews of the reviewer (all reviews when the reviewer is empty) in
    descending order of [created_at], so no row cut off is newer than a row
    returned.  A limit of zero returns nothing and a negative limit
    returns everything. *)
Theorem GetReviewHistory_most_recent s reviewer_ limit :
  ∃ kept dropped,
    GetReviewHistory no_faults s reviewer_ limit = (scan_review <$> kept, None) ∧
    kept ++ dropped ≡ₚ history_candidates s reviewer_ ∧
    StronglySorted (λ a b, created_at b ≤ created_at a) (kept ++ dropped) ∧
    length kept = limited limit (length (history_candidates s reviewer_)) ∧
    (reviewer_ ≠ "" → Forall (λ r, Reviewer r = reviewer_) (scan_review <$> kept)) ∧
    (reviewer_ = "" → history_candidates s reviewer_ = reviews s).
Proof.
  assert (select_review_history s reviewer_ limit =
          sql_limit limit (order_by_created_at_desc (history_candidates s reviewer_)))
    as Hsel.
  { unfold select_review_history, history_candidates. by case_decide. }
  destruct (sql_limit_split limit
              (order_by_created_at_desc (history_candidates s reviewer_)))
    as (dropped & Hsplit & Hlen).
  assert (order_by_created_at_desc (history_candidates s reviewer_) ≡ₚ
          history_candidates s reviewer_) as Hperm
    by (by apply (foldr_ins_desc_perm created_at)).
  exists (select_review_history s reviewer_ limit), dropped.
  rewrite Hsel, Hsplit. split_and!.
  - unfold GetReviewHistory. simpl.
    by rewrite scan_reviews_no_faults, Hsel by done.
  - done.
  - by apply (foldr_ins_desc_sorted created_at).
  - by rewrite Hlen, Hperm.
  - intros Hne. apply Forall_fmap, Forall_forall. intros row Hrow. simpl.
    assert (row ∈ history_candidates s reviewer_) as Hin.
    { rewrite <- Hperm, <- Hsplit. apply elem_of_app. by left. }
    unfold history_candidates in Hin. rewrite decide_True in Hin by done.
    by apply list_elem_of_filter in Hin as [? _].
  - intros ->. unfold history_candidates. by rewrite decide_False by (by intros ?).
Qed.

(** X13.  GetReviewSessionsByReviewer, without driver failures, returns the most
    recently started sessions of the reviewer, in descending order of
    [started_at] and cut at the limit.  Unlike GetReviewHistory it filters
    on the reviewer even when the name is empty. *)
Theorem GetReviewSessionsByReviewer_most_recent s reviewer_ limit :
  ∃ kept dropped,
    GetReviewSessionsByReviewer no_faults s reviewer_ limit =
      (scan_session <$> kept, None) ∧
    kept ++ dropped ≡ₚ session_candidates s reviewer_ ∧
    StronglySorted (λ a b, started_at b ≤ started_at a) (kept ++ dropped) ∧
    length kept = limited limit (length (session_candidates s reviewer_)) ∧
    Forall (λ r, sess_Reviewer r = reviewer_) (scan_session <$> kept).
Proof.
  destruct (sql_limit_split limit
              (order_by_started_at_desc (session_candidates s reviewer_)))
    as (dropped & Hsplit & Hlen).
  assert (order_by_started_at_desc (session_candidates s reviewer_) ≡ₚ
          session_candidates s reviewer_) as Hperm
    by (by apply (foldr_ins_desc_perm started_at)).
  exists (select_sessions_by_reviewer s reviewer_ limit), dropped.
  unfold select_sessions_by_reviewer. fold (session_candidates s reviewer_).
  rewrite Hsplit. split_and!.
  - unfold GetReviewSessionsByReviewer, select_sessions_by_reviewer. simpl.
    fold (session_candidates s reviewer_).
    generalize (sql_limit limit
                  (order_by_started_at_desc (session_candidates s reviewer_))).
    intros rows. change (scan_session <$> rows) with ([] ++ (scan_session <$> rows)).
    generalize (@nil ReviewSession) 0%nat.
    induction rows as [|row rows IH]; intros acc i; simpl.
    + by rewrite app_nil_r.
    + rewrite IH, <- app_assoc. done.
  - done.
  - by apply (foldr_ins_desc_sorted started_at).
  - by rewrite Hlen, Hperm.
  - apply Forall_fmap, Forall_forall. intros row Hrow. simpl.
    assert (row ∈ session_candidates s reviewer_) as Hin.
    { rewrite <- Hperm, <- Hsplit. apply elem_of_app. by left. }
    by apply list_elem_of_filter in Hin as [? _].
Qed.

(** ** The queries under driver failures *)

Lemma scan_reviews_prefix fl i rows acc :
  (scan_reviews fl i rows acc).1 `prefix_of` acc ++ (scan_review <$> rows) ∧
  ((scan_reviews fl i rows acc).2 = None →
   (scan_reviews fl i rows acc).1 = acc ++ (scan_review <$> rows)).
Proof.
  revert i acc. induction rows as [|row rows IH]; intros i acc; simpl.
  - destruct (fl (SiteNext i)); simpl; rewrite app_nil_r; done.
  - destruct (fl (SiteNext i)); simpl.
    { split; [by apply prefix_app_r | done]. }
    destruct (fl (SiteScan i)); simpl.
    { split; [apply prefix_nil | done]. }
    specialize (IH (S i) (acc ++ [scan_review row])).
    by rewrite <- app_assoc in IH.
Qed.

Lemma scan_sessions_prefix fl i rows acc :
  (scan_sessions fl i rows acc).1 `prefix_of` acc ++ (scan_session <$> rows) ∧
  ((scan_sessions fl i rows acc).2 = None →
   (scan_sessions fl i rows acc).1 = acc ++ (scan_session <$> rows)).
Proof.
  revert i acc. induction rows as [|row rows IH]; intros i acc; simpl.
  - destruct (fl (SiteNext i)); simpl; rewrite app_nil_r; done.
  - destruct (fl (SiteNext i)); simpl.
    { split; [by apply prefix_app_r | done]. }
    destruct (fl (SiteScan i)); simpl.
    { split; [apply prefix_nil | done]. }
    specialize (IH (S i) (acc ++ [scan_session row])).
    by rewrite <- app_assoc in IH.
Qed.

(** X14.  Whatever the driver does, the three list queries return a prefix of
    what they return when nothing fails: never a row the query does not
    select, never rows out of order; and when they report no error they
    return all of it. *)
Theorem list_queries_return_prefix fl s issueID reviewer_ limit :
  ((GetReviewsByIssue fl s issueID).1 `prefix_of`
     (GetReviewsByIssue no_faults s issueID).1 ∧
   ((GetReviewsByIssue fl s issueID).2 = None →
    (GetReviewsByIssue fl s issueID).1 = (GetReviewsByIssue no_faults s issueID).1) ∧
   Forall (λ r, IssueID r = issueID) (GetReviewsByIssue fl s issueID).1) ∧
  ((GetReviewHistory fl s reviewer_ limit).1 `prefix_of`
     (GetReviewHistory no_faults s reviewer_ limit).1 ∧
   ((GetReviewHistory fl s reviewer_ limit).2 = None →
    (GetReviewHistory fl s reviewer_ limit).1 =
    (GetReviewHistory no_faults s reviewer_ limit).1)) ∧
  ((GetReviewSessionsByReviewer fl s reviewer_ limit).1 `prefix_of`
     (GetReviewSessionsByReviewer no_faults s reviewer_ limit).1 ∧
   ((GetReviewSessionsByReviewer fl s reviewer_ limit).2 = None →
    (GetReviewSessionsByReviewer fl s reviewer_ limit).1 =
    (GetReviewSessionsByReviewer no_faults s reviewer_ limit).1)).
Proof.
  assert (∀ rows, (scan_reviews no_faults 0 rows []).1 = scan_review <$> rows)
    as Hfull by (intros; by rewrite scan_reviews_no_faults).
  assert (∀ rows, (scan_sessions no_faults 0 rows []).1 = scan_session <$> rows)
    as Hfull'.
  { intros rows.
    destruct (scan_sessions_prefix no_faults 0 rows []) as [_ Heq].
    rewrite Heq; [done|]. clear. generalize (@nil ReviewSession) 0%nat.
    induction rows as [|row rows IH]; intros acc i; simpl; [done | apply IH]. }
  split_and!.
  - unfold GetReviewsByIssue. simpl. destruct (fl SiteQuery); simpl.
    + apply prefix_nil.
    + rewrite Hfull. apply (scan_reviews_prefix fl 0 _ []).
  - unfold GetReviewsByIssue. simpl. destruct (fl SiteQuery); simpl; [done|].
    rewrite Hfull. apply (scan_reviews_prefix fl 0 _ []).
  - assert ((GetReviewsByIssue fl s issueID).1 `prefix_of`
            scan_review <$> select_reviews_by_issue s issueID) as [k Hk].
    { unfold GetReviewsByIssue. destruct (fl SiteQuery); simpl.
      - apply prefix_nil.
      - apply (scan_reviews_prefix fl 0 _ []). }
    apply Forall_forall. intros r Hr.
    assert (r ∈ scan_review <$> select_reviews_by_issue s issueID) as Hin
      by (rewrite Hk; apply elem_of_app; by left).
    apply list_elem_of_fmap in Hin as (row & -> & Hrow).
    unfold select_reviews_by_issue in Hrow.
    rewrite order_by_created_at_perm in Hrow.
    by apply list_elem_of_filter in Hrow as [? _].
  - unfold GetReviewHistory. simpl. destruct (fl SiteQuery); simpl.
    + apply prefix_nil.
    + rewrite Hfull. apply (scan_reviews_prefix fl 0 _ []).
  - unfold GetReviewHistory. simpl. destruct (fl SiteQuery); simpl; [done|].
    rewrite Hfull. apply (scan_reviews_prefix fl 0 _ []).
  - unfold GetReviewSessionsByReviewer. simpl. destruct (fl SiteQuery); simpl.
    + apply prefix_nil.
    + rewrite Hfull'. apply (scan_sessions_prefix fl 0 _ []).
  - unfold GetReviewSessionsByReviewer. simpl.
    destruct (fl SiteQuery); simpl; [done|].
    rewrite Hfull'. apply (scan_sessions_prefix fl 0 _ []).
Qed.


(** * Further properties of the commands *)

(** X15.  A run of [bd review] that ends in a fatal error has changed nothing: the
    database is the one it started with, nothing was printed and no flush
    was asked for.  A run that ends without error asked for a flush, and
    then the read-only check had passed, the flags were valid, the issue
    existed, the store was the SQLite one, and CreateReview had succeeded on
    the review built from the flags. *)
Theorem reviewCmd_outcomes env fl now issueID flags s :
  (fatal_error (reviewCmd env fl now issueID flags s) ≠ None →
   final_store (reviewCmd env fl now issueID flags s) = s ∧
   flush_scheduled (reviewCmd env fl now issueID flags s) = false ∧
   stdout (reviewCmd env fl now issueID flags s) = []) ∧
  (fatal_error (reviewCmd env fl now issueID flags s) = None →
   flush_scheduled (reviewCmd env fl now issueID flags s) = true ∧
   CheckReadonly env "review" = None ∧ valid_flags env flags ∧
   is_Some (issues s !! issueID) ∧ store_is_sqlite env = true ∧
   ∃ review',
     CreateReview fl now (asked_review issueID flags) (actor_name env) s =
       (final_store (reviewCmd env fl now issueID flags s), review', None)).
Proof.
  unfold reviewCmd, FatalError, valid_flags, GetIssue.
  fold (asked_count flags) (asked_reviewer flags) (asked_type flags)
       (asked_outcome flags) (asked_notes flags).
  fold (asked_review issueID flags).
  destruct (CheckReadonly env "review"); [done|].
  repeat case_bool_decide; try done.
  destruct (IsValid env (asked_type flags)); simpl; [|done].
  destruct (fl SiteGetIssue); simpl; [done|].
  destruct (issues s !! issueID) as [row|]; simpl; [|done].
  destruct (store_is_sqlite env); simpl; [|done].
  destruct (CreateReview fl now (asked_review issueID flags) (actor_name env) s)
    as [[s' review'] [e|]] eqn:Hrun; simpl.
  - apply CreateReview_err in Hrun as ->. done.
  - split; [done|]. intros _. split_and!; eauto. lia.
Qed.

Lemma reviewCmd_outcomes_witness :
  fatal_error (reviewCmd sample_env no_faults 9 "bd-1" approve_flags sample_store)
    = None ∧
  flush_scheduled (reviewCmd sample_env no_faults 9 "bd-1" approve_flags
                     sample_store) = true.
Proof.
  assert (fatal_error (reviewCmd sample_env no_faults 9 "bd-1" approve_flags
                         sample_store) = None) as Hok by (vm_compute; reflexivity).
  split; [exact Hok|].
  exact (proj1 (proj2 (reviewCmd_outcomes sample_env no_faults 9 "bd-1"
                         approve_flags sample_store) Hok)).
Defined.

(** X16.  [bd review] on an issue the store does not hold ends with "issue ... not
    found" after the lookup, and never calls CreateReview. *)
Theorem reviewCmd_unknown_issue env fl now issueID flags s :
  CheckReadonly env "review" = None → valid_flags env flags →
  fl SiteGetIssue = None → issues s !! issueID = None →
  reviewCmd env fl now issueID flags s =
    mkRun (Some ("issue " +:+ issueID +:+ " not found")) []
          [CallGetIssue issueID] false s.
Proof.
  intros Hro (Hcount & Hrev & Hvalid) Hfl Hnone.
  unfold reviewCmd, FatalError, GetIssue.
  fold (asked_count flags) (asked_reviewer flags) (asked_type flags).
  rewrite Hro, Hcount, Hvalid, Hfl, Hnone. simpl.
  by rewrite bool_decide_eq_false_2 by done.
Qed.

Lemma reviewCmd_unknown_issue_witness :
  valid_flags sample_env approve_flags ∧
  reviewCmd sample_env no_faults 9 "bd-404" approve_flags lax_store =
    mkRun (Some "issue bd-404 not found") [] [CallGetIssue "bd-404"] false
          lax_store.
Proof.
  assert (valid_flags sample_env approve_flags) as Hvalid
    by (split_and!; [reflexivity | discriminate | reflexivity]).
  split; [exact Hvalid|].
  apply (reviewCmd_unknown_issue sample_env no_faults 9 "bd-404" approve_flags
           lax_store); [reflexivity | exact Hvalid | reflexivity |].
  vm_compute. reflexivity.
Defined.

(** X17.  [bd review-history]: for an issue the store does not hold it ends with
    "issue ... not found" without querying the reviews; for an issue
    without reviews it prints the placeholder line instead of history
    lines.  It never asks for a flush and leaves the database as it is. *)
Theorem reviewHistoryCmd_edges env fl issueID s :
  fl SiteGetIssue = None →
  (issues s !! issueID = None →
   reviewHistoryCmd env fl issueID s =
     mkRun (Some ("issue " +:+ issueID +:+ " not found")) []
           [CallGetIssue issueID] false s) ∧
  (∀ row, issues s !! issueID = Some row →
   (∀ site, fl site = None) →
   store_is_sqlite env = true → global_jsonOutput env = false →
   filter (λ r, issue_id r = issueID) (reviews s) = [] →
   ∃ status,
     reviewHistoryCmd env fl issueID s =
       mkRun None
         ([nl +:+ cyan env issueID +:+ ": " +:+ title row +:+ nl;
           "Review History:" +:+ nl; "  (no reviews yet)" +:+ nl] ++
          status ++ [nl])
         [CallGetIssue issueID; CallGetReviewsByIssue issueID] false s ∧
     (review_status row = "" → status = [])) ∧
  flush_scheduled (reviewHistoryCmd env fl issueID s) = false ∧
  final_store (reviewHistoryCmd env fl issueID s) = s.
Proof.
  intros Hget. unfold reviewHistoryCmd, FatalError, GetIssue. rewrite Hget.
  split_and!.
  - by intros ->.
  - intros row -> Hfl -> -> Hnone. simpl.
    rewrite GetReviewsByIssue_no_faults by done.
    unfold select_reviews_by_issue. rewrite Hnone. simpl.
    eexists. split; [reflexivity|]. intros ->. by rewrite decide_True.
  - repeat (case_match; simpl; try done).
  - repeat (case_match; simpl; try done).
Qed.

Lemma reviewHistoryCmd_edges_witness :
  no_faults SiteGetIssue = None ∧
  reviewHistoryCmd sample_env no_faults "bd-404" sample_store =
    mkRun (Some "issue bd-404 not found") [] [CallGetIssue "bd-404"] false
          sample_store.
Proof.
  split; [reflexivity|].
  apply (proj1 (reviewHistoryCmd_edges sample_env no_faults "bd-404" sample_store
                  eq_refl)).
  vm_compute. reflexivity.
Defined.


(** * Properties of the migrations *)

(** ** Migrations only add *)

Lemma schema_extends_refl sch : schema_extends sch sch.
Proof. split; [intros name t ?; exists t; done | done]. Qed.

Lemma schema_extends_trans sch1 sch2 sch3 :
  schema_extends sch1 sch2 → schema_extends sch2 sch3 → schema_extends sch1 sch3.
Proof.
  intros [Ht1 Hi1] [Ht2 Hi2]. split; [|by auto].
  intros name t Ht. destruct (Ht1 _ _ Ht) as (t' & Ht' & Hpre & Hc).
  destruct (Ht2 _ _ Ht') as (t'' & Ht'' & Hpre' & Hc').
  exists t''. split_and!; [done | by etrans | congruence].
Qed.

Local Instance schema_extends_preorder : PreOrder schema_extends.
Proof.
  split; [intros ?; apply schema_extends_refl |
          intros ???; apply schema_extends_trans].
Qed.

Lemma schema_extends_column sch sch' name t col :
  schema_extends sch sch' → tables sch !! name = Some t →
  col ∈ column_names t →
  ∃ t', tables sch' !! name = Some t' ∧ col ∈ column_names t'.
Proof.
  intros [Ht _] Hname Hcol. destruct (Ht _ _ Hname) as (t' & Ht' & [k Hk] & _).
  exists t'. split; [done|]. unfold column_names in *. rewrite Hk, fmap_app.
  apply elem_of_app. by left.
Qed.

Lemma create_index_extends fl name idx sch sch' :
  create_index_if_not_exists fl name idx sch = inr sch' →
  schema_extends sch sch' ∧ tables sch' = tables sch ∧
  is_Some (indexes sch' !! name).
Proof.
  unfold create_index_if_not_exists. intros H.
  destruct (fl (CreateIndex name)); [done|].
  destruct (indexes sch !! name) as [old|] eqn:Hold.
  { injection H as <-. split_and!; [apply schema_extends_refl | done | eauto]. }
  destruct (tables sch !! idx_table idx); [|done].
  case_bool_decide; [|done]. injection H as <-. simpl. split_and!; [|done|].
  - split; simpl; [intros n t0 ?; exists t0; done|].
    intros n i Hn. rewrite lookup_insert_ne; [done | congruence].
  - rewrite lookup_insert_eq. eauto.
Qed.

Lemma create_indexes_extends fl idxs sch :
  schema_extends sch (create_indexes fl idxs sch).1 ∧
  tables (create_indexes fl idxs sch).1 = tables sch.
Proof.
  revert sch. induction idxs as [|[name idx] idxs IH]; intros sch; simpl.
  - split; [apply schema_extends_refl | done].
  - destruct (create_index_if_not_exists fl name idx sch) as [e|sch'] eqn:Hc; simpl.
    + split; [apply schema_extends_refl | done].
    + apply create_index_extends in Hc as (He & Ht & _).
      destruct (IH sch') as [He' Ht']. split; [by etrans|congruence].
Qed.

Lemma add_column_extends fl table col sch sch' :
  add_column fl table col sch = inr sch' →
  schema_extends sch sch' ∧ indexes sch' = indexes sch ∧
  ∃ t, tables sch !! table = Some t ∧ (col_name col ∉ column_names t) ∧
       tables sch' =
         <[table := mkTable (tbl_columns t ++ [col]) (tbl_constraints t)]>
           (tables sch).
Proof.
  unfold add_column. intros H. destruct (fl (AddColumn _)); [done|].
  destruct (tables sch !! table) as [t|] eqn:Ht; [|done].
  case_bool_decide; [done|]. injection H as <-. simpl.
  split_and!; [|done|eauto]. split; simpl; [|done].
  intros n t0 Hn. destruct (decide (n = table)) as [->|Hne].
  - rewrite lookup_insert_eq. eexists. split; [done|]. simpl.
    rewrite Ht in Hn. injection Hn as <-. split; [by apply prefix_app_r | done].
  - rewrite lookup_insert_ne by done. exists t0. done.
Qed.

Lemma add_missing_columns_extends fl cols sch :
  schema_extends sch (add_missing_columns fl cols sch).1 ∧
  indexes (add_missing_columns fl cols sch).1 = indexes sch.
Proof.
  revert sch. induction cols as [|col cols IH]; intros sch; simpl.
  - split; [apply schema_extends_refl | done].
  - destruct (column_exists fl "issues" (col_name col) sch) as [e|[|]]; simpl.
    + split; [apply schema_extends_refl | done].
    + apply IH.
    + destruct (add_column fl "issues" col sch) as [e|sch'] eqn:Ha; simpl.
      * split; [apply schema_extends_refl | done].
      * apply add_column_extends in Ha as (He & Hi & _).
        destruct (IH sch') as [He' Hi']. split; [by etrans | congruence].
Qed.

Lemma MigrateReviewColumns_extends fl sch :
  schema_extends sch (MigrateReviewColumns fl sch).1.
Proof.
  unfold MigrateReviewColumns.
  pose proof (add_missing_columns_extends fl review_columns sch) as [He _].
  destruct (add_missing_columns fl review_columns sch) as [s1 [e|]]; simpl in *;
    [done|].
  destruct (create_index_if_not_exists fl _ _ s1) as [e|s2] eqn:H1; simpl; [done|].
  apply create_index_extends in H1 as (He1 & _).
  destruct (create_index_if_not_exists fl _ _ s2) as [e|s3] eqn:H2; simpl.
  - by etrans.
  - apply create_index_extends in H2 as (He2 & _). etrans; [done|]. by etrans.
Qed.

Lemma create_table_extends fl name t sch sch' :
  create_table fl name t sch = inr sch' →
  schema_extends sch sch' ∧ tables sch !! name = None ∧
  tables sch' = <[name := t]> (tables sch) ∧ indexes sch' = indexes sch.
Proof.
  unfold create_table. intros H. destruct (fl (CreateTable name)); [done|].
  destruct (tables sch !! name) eqn:Hn; [done|]. injection H as <-. simpl.
  split_and!; try done. split; simpl; [|done].
  intros n t0 Ht0. exists t0. rewrite lookup_insert_ne; [done | congruence].
Qed.

Lemma migrate_table_extends fl name t idxs sch :
  schema_extends sch (migrate_table fl name t idxs sch).1.
Proof.
  unfold migrate_table, table_exists. destruct (fl (CheckTable name)); simpl.
  { apply schema_extends_refl. }
  case_bool_decide; simpl.
  - apply create_indexes_extends.
  - destruct (create_table fl name t sch) as [e|sch'] eqn:Hc; simpl.
    + apply schema_extends_refl.
    + apply create_table_extends in Hc as (He & _).
      etrans; [done|]. apply create_indexes_extends.
Qed.

(** X18.  Whatever the driver does, a migration only adds to the schema: every
    table that was there is still there, with the same constraints and with
    its columns first and unchanged, and every index that was there is
    unchanged.  No migration drops or rewrites anything. *)
Theorem migrations_only_add fl sch :
  schema_extends sch (MigrateReviewColumns fl sch).1 ∧
  schema_extends sch (MigrateReviewsTable fl sch).1 ∧
  schema_extends sch (MigrateReviewSessionsTable fl sch).1.
Proof.
  split_and!; [apply MigrateReviewColumns_extends | apply migrate_table_extends..].
Qed.

(** ** Running a migration again *)

Lemma create_index_without_faults fl name idx sch sch' :
  create_index_if_not_exists fl name idx sch = inr sch' →
  create_index_if_not_exists no_ddl_faults name idx sch = inr sch'.
Proof.
  unfold create_index_if_not_exists. simpl. by destruct (fl (CreateIndex name)).
Qed.

Lemma create_index_present name idx sch :
  is_Some (indexes sch !! name) →
  create_index_if_not_exists no_ddl_faults name idx sch = inr sch.
Proof. unfold create_index_if_not_exists. simpl. by intros [? ->]. Qed.

Lemma schema_extends_index sch sch' name :
  schema_extends sch sch' → is_Some (indexes sch !! name) →
  is_Some (indexes sch' !! name).
Proof. intros [_ Hi] [idx Hidx]. exists idx. auto. Qed.

Lemma create_indexes_resume fl idxs sch :
  create_indexes no_ddl_faults idxs (create_indexes fl idxs sch).1 =
  create_indexes no_ddl_faults idxs sch.
Proof.
  revert sch. induction idxs as [|[name idx] idxs IH]; intros sch; [done|].
  cbn [create_indexes].
  destruct (create_index_if_not_exists fl name idx sch) as [e|sch1] eqn:Hc;
    [done|].
  rewrite (create_index_without_faults _ _ _ _ _ Hc).
  cbn [fst]. cbn [create_indexes]. rewrite create_index_present.
  - apply IH.
  - eapply schema_extends_index; [apply create_indexes_extends|].
    by apply create_index_extends in Hc as (_ & _ & ?).
Qed.

Lemma create_table_without_faults fl name t sch sch' :
  create_table fl name t sch = inr sch' →
  create_table no_ddl_faults name t sch = inr sch'.
Proof. unfold create_table. simpl. by destruct (fl (CreateTable name)). Qed.

Lemma migrate_table_resume fl name t idxs sch :
  migrate_table no_ddl_faults name t idxs (migrate_table fl name t idxs sch).1 =
  migrate_table no_ddl_faults name t idxs sch.
Proof.
  unfold migrate_table at 2 3. unfold table_exists.
  destruct (fl (CheckTable name)); [done|]. simpl.
  case_bool_decide as Hex; simpl.
  - unfold migrate_table, table_exists. simpl.
    rewrite bool_decide_eq_true_2.
    + apply create_indexes_resume.
    + by rewrite (proj2 (create_indexes_extends fl idxs sch)).
  - destruct (create_table fl name t sch) as [e|sch1] eqn:Hc; simpl.
    + unfold migrate_table, table_exists. simpl.
      by rewrite bool_decide_eq_false_2.
    + rewrite (create_table_without_faults _ _ _ _ _ Hc).
      apply create_table_extends in Hc as (_ & _ & Ht & _).
      unfold migrate_table, table_exists. simpl.
      rewrite bool_decide_eq_true_2.
      * apply create_indexes_resume.
      * rewrite (proj2 (create_indexes_extends fl idxs sch1)), Ht.
        rewrite lookup_insert_eq. eauto.
Qed.

Lemma column_exists_extends sch sch' name :
  schema_extends sch sch' →
  column_exists no_ddl_faults "issues" name sch = inr true →
  column_exists no_ddl_faults "issues" name sch' = inr true.
Proof.
  unfold column_exists. simpl. intros Hext H.
  destruct (tables sch !! "issues") as [t|] eqn:Ht; [|done].
  injection H as H. apply bool_decide_eq_true in H.
  destruct (schema_extends_column _ _ _ _ _ Hext Ht H) as (t' & -> & Hin).
  by rewrite bool_decide_eq_true_2.
Qed.

Lemma column_exists_without_faults fl name sch b :
  column_exists fl "issues" name sch = inr b →
  column_exists no_ddl_faults "issues" name sch = inr b.
Proof. unfold column_exists. simpl. by destruct (fl (CheckColumn name)). Qed.

Lemma add_column_without_faults fl col sch sch' :
  add_column fl "issues" col sch = inr sch' →
  add_column no_ddl_faults "issues" col sch = inr sch' ∧
  column_exists no_ddl_faults "issues" (col_name col) sch' = inr true.
Proof.
  intros H. split.
  - revert H. unfold add_column. simpl. by destruct (fl (AddColumn _)).
  - apply add_column_extends in H as (_ & _ & t & _ & _ & Ht).
    unfold column_exists. simpl. rewrite Ht, lookup_insert_eq.
    rewrite bool_decide_eq_true_2; [done|]. unfold column_names. simpl.
    rewrite fmap_app. apply elem_of_app. right. simpl. set_solver.
Qed.

Lemma add_missing_columns_resume fl cols sch :
  add_missing_columns no_ddl_faults cols (add_missing_columns fl cols sch).1 =
  add_missing_columns no_ddl_faults cols sch.
Proof.
  revert sch. induction cols as [|col cols IH]; intros sch; [done|].
  cbn [add_missing_columns].
  destruct (column_exists fl "issues" (col_name col) sch) as [e|b] eqn:Hex;
    [done|].
  rewrite (column_exists_without_faults _ _ _ _ Hex). destruct b.
  - rewrite (column_exists_extends sch).
    + apply IH.
    + apply add_missing_columns_extends.
    + by eapply column_exists_without_faults.
  - destruct (add_column fl "issues" col sch) as [e|sch1] eqn:Ha.
    + cbn [fst add_missing_columns].
      by rewrite (column_exists_without_faults _ _ _ _ Hex).
    + destruct (add_column_without_faults _ _ _ _ Ha) as [-> Hnow].
      rewrite (column_exists_extends sch1); [apply IH | | done].
      apply add_missing_columns_extends.
Qed.

Lemma add_missing_columns_without_faults fl cols sch sch' :
  add_missing_columns fl cols sch = (sch', None) →
  add_missing_columns no_ddl_faults cols sch = (sch', None).
Proof.
  revert sch. induction cols as [|col cols IH]; intros sch; [done|].
  cbn [add_missing_columns].
  destruct (column_exists fl "issues" (col_name col) sch) as [e|b] eqn:Hex;
    [done|].
  rewrite (column_exists_without_faults _ _ _ _ Hex). destruct b; [apply IH|].
  destruct (add_column fl "issues" col sch) as [e|sch1] eqn:Ha; [done|].
  destruct (add_column_without_faults _ _ _ _ Ha) as [-> _]. apply IH.
Qed.

(** The loop over the columns looks at the tables only. *)
Lemma add_missing_columns_indexes cols sch idxs :
  add_missing_columns no_ddl_faults cols (mkSchema (tables sch) idxs) =
  (mkSchema (tables (add_missing_columns no_ddl_faults cols sch).1) idxs,
   (add_missing_columns no_ddl_faults cols sch).2).
Proof.
  revert sch. induction cols as [|col cols IH]; intros sch; [done|].
  cbn [add_missing_columns]. unfold column_exists, add_column. simpl.
  destruct (tables sch !! "issues") as [t|]; [|done].
  case_bool_decide; [apply IH|]. simpl.
  exact (IH (mkSchema _ (indexes sch))).
Qed.

Lemma MigrateReviewColumns_resume fl sch :
  MigrateReviewColumns no_ddl_faults (MigrateReviewColumns fl sch).1 =
  MigrateReviewColumns no_ddl_faults sch.
Proof.
  unfold MigrateReviewColumns at 2.
  pose proof (add_missing_columns_resume fl review_columns sch) as Hres.
  destruct (add_missing_columns fl review_columns sch) as [s1 [e|]] eqn:Hcols;
    cbn [fst] in Hres |- *.
  { unfold MigrateReviewColumns. by rewrite Hres. }
  apply add_missing_columns_without_faults in Hcols.
  assert (∀ s2, tables s2 = tables s1 →
            add_missing_columns no_ddl_faults review_columns s2 = (s2, None))
    as Hdone.
  { intros [tbls idxs] Ht. cbn [tables] in Ht. subst tbls.
    rewrite add_missing_columns_indexes, Hres, Hcols. done. }
  destruct (create_index_if_not_exists fl "idx_issues_review_status" _ s1)
    as [e|s2] eqn:H1; cbn [fst].
  { unfold MigrateReviewColumns. by rewrite Hres. }
  pose proof (create_index_extends _ _ _ _ _ H1) as (He1 & Ht1 & Hin1).
  apply create_index_without_faults in H1.
  destruct (create_index_if_not_exists fl "idx_issues_reviewed_at" _ s2)
    as [e|s3] eqn:H2; cbn [fst].
  { unfold MigrateReviewColumns. rewrite (Hdone s2 Ht1), Hcols, H1.
    by rewrite create_index_present. }
  pose proof (create_index_extends _ _ _ _ _ H2) as (He2 & Ht2 & Hin2).
  apply create_index_without_faults in H2.
  unfold MigrateReviewColumns.
  rewrite (Hdone s3) by congruence. rewrite Hcols, H1, H2.
  rewrite create_index_present by (by eapply schema_extends_index).
  by rewrite create_index_present.
Qed.

(** X19.  A migration can be run again after any run of it, finished or not:
    running it without driver failures on the schema an earlier run left,
    however that run ended, gives the schema and the result that a single
    run without failures gives. *)
Theorem migrations_resume fl sch :
  MigrateReviewColumns no_ddl_faults (MigrateReviewColumns fl sch).1 =
    MigrateReviewColumns no_ddl_faults sch ∧
  MigrateReviewsTable no_ddl_faults (MigrateReviewsTable fl sch).1 =
    MigrateReviewsTable no_ddl_faults sch ∧
  MigrateReviewSessionsTable no_ddl_faults (MigrateReviewSessionsTable fl sch).1 =
    MigrateReviewSessionsTable no_ddl_faults sch.
Proof.
  split_and!; [apply MigrateReviewColumns_resume | apply migrate_table_resume..].
Qed.

(** X20.  Migrations are idempotent: a migration that succeeded, run again,
    succeeds and leaves the schema exactly as it is. *)
Theorem migrations_idempotent sch sch' :
  (MigrateReviewColumns no_ddl_faults sch = (sch', None) →
   MigrateReviewColumns no_ddl_faults sch' = (sch', None)) ∧
  (MigrateReviewsTable no_ddl_faults sch = (sch', None) →
   MigrateReviewsTable no_ddl_faults sch' = (sch', None)) ∧
  (MigrateReviewSessionsTable no_ddl_faults sch = (sch', None) →
   MigrateReviewSessionsTable no_ddl_faults sch' = (sch', None)).
Proof.
  split_and!; intros Hrun.
  - pose proof (MigrateReviewColumns_resume no_ddl_faults sch) as H.
    by rewrite Hrun in H.
  - pose proof (migrate_table_resume no_ddl_faults "reviews" reviews_table
                  reviews_indexes sch) as H.
    unfold MigrateReviewsTable in *. by rewrite Hrun in H.
  - pose proof (migrate_table_resume no_ddl_faults "review_sessions"
                  review_sessions_table review_sessions_indexes sch) as H.
    unfold MigrateReviewSessionsTable in *. by rewrite Hrun in H.
Qed.

Lemma migrations_idempotent_witness :
  MigrateReviewsTable no_ddl_faults bare_schema =
    ((MigrateReviewsTable no_ddl_faults bare_schema).1, None) ∧
  MigrateReviewsTable no_ddl_faults (MigrateReviewsTable no_ddl_faults bare_schema).1 =
    ((MigrateReviewsTable no_ddl_faults bare_schema).1, None).
Proof.
  assert (MigrateReviewsTable no_ddl_faults bare_schema =
          ((MigrateReviewsTable no_ddl_faults bare_schema).1, None)) as Hrun
    by (vm_compute; reflexivity).
  split; [exact Hrun|].
  exact (proj1 (proj2 (migrations_idempotent bare_schema _)) Hrun).
Defined.

(** ** What the migrations create *)

Lemma create_indexes_all fl name t idxs sch :
  (∀ site, fl site = None) → tables sch !! name = Some t →
  indexes_fit name t idxs →
  ∃ sch', create_indexes fl idxs sch = (sch', None) ∧
          tables sch' = tables sch ∧
          (∀ ni, ni ∈ idxs → is_Some (indexes sch' !! ni.1)) ∧
          (∀ n, n ∉ idxs.*1 → indexes sch' !! n = indexes sch !! n).
Proof.
  intros Hfl. revert sch.
  induction idxs as [|[n idx] idxs IH]; intros sch Ht Hfit; simpl.
  - exists sch. split_and!; try done. intros ni Hni. by apply elem_of_nil in Hni.
  - apply Forall_cons in Hfit as [[Htbl Hcol] Hfit]. simpl in *.
    destruct (create_index_if_not_exists fl n idx sch) as [e|sch1] eqn:Hc.
    { exfalso. unfold create_index_if_not_exists in Hc.
      rewrite Hfl, Htbl, Ht, bool_decide_eq_true_2 in Hc by done.
      by destruct (indexes sch !! n). }
    pose proof (create_index_extends _ _ _ _ _ Hc) as (He & Ht1 & Hin).
    destruct (IH sch1) as (sch' & Hrun & Ht' & Hall & Hother);
      [by rewrite Ht1 | done |].
    exists sch'. split_and!; [done | congruence | |].
    + intros ni [->|Hni]%elem_of_cons; [|by auto]. simpl.
      eapply schema_extends_index; [|done].
      pose proof (create_indexes_extends fl idxs sch1) as [Hext _].
      by rewrite Hrun in Hext.
    + intros m Hm. apply not_elem_of_cons in Hm as [Hne Hm].
      rewrite (Hother m Hm). unfold create_index_if_not_exists in Hc.
      rewrite Hfl in Hc. destruct (indexes sch !! n); [by injection Hc as <-|].
      destruct (tables sch !! idx_table idx); [|done].
      case_bool_decide; [|done]. injection Hc as <-. simpl.
      by rewrite lookup_insert_ne.
Qed.

Lemma migrate_table_creates fl name t idxs sch :
  (∀ site, fl site = None) → tables sch !! name = None →
  indexes_fit name t idxs →
  ∃ sch', migrate_table fl name t idxs sch = (sch', None) ∧
          tables sch' = <[name := t]> (tables sch) ∧
          (∀ ni, ni ∈ idxs → is_Some (indexes sch' !! ni.1)) ∧
          (∀ n, n ∉ idxs.*1 → indexes sch' !! n = indexes sch !! n).
Proof.
  intros Hfl Hnone Hfit. unfold migrate_table, table_exists, create_table.
  rewrite !Hfl, Hnone. rewrite bool_decide_eq_false_2 by (by intros [? ?]).
  simpl.
  destruct (create_indexes_all fl name t idxs
              (mkSchema (<[name := t]> (tables sch)) (indexes sch)))
    as (sch' & Hrun & Ht & Hall & Hother); [done | | done |].
  { simpl. by rewrite lookup_insert_eq. }
  exists sch'. done.
Qed.

Lemma migrate_table_keeps fl name t idxs sch :
  is_Some (tables sch !! name) →
  tables (migrate_table fl name t idxs sch).1 = tables sch.
Proof.
  intros Hsome. unfold migrate_table, table_exists.
  destruct (fl (CheckTable name)); [done|]. simpl.
  rewrite bool_decide_eq_true_2 by done. simpl. apply create_indexes_extends.
Qed.

(** X21.  The two table migrations: on a schema without the table and without
    driver failures, each succeeds, creates its table as declared and its
    indexes, and touches no other table or index; every column that the
    statements of reviews.go name is then a column of the table.  On a
    schema that has a table of that name, the table is left as it is,
    whatever its columns. *)
Theorem table_migrations_create fl sch :
  (∀ site, fl site = None) →
  (tables sch !! "reviews" = None →
   ∃ sch', MigrateReviewsTable fl sch = (sch', None) ∧
           tables sch' = <["reviews" := reviews_table]> (tables sch) ∧
           (∀ ni, ni ∈ reviews_indexes → is_Some (indexes sch' !! ni.1)) ∧
           (∀ n, n ∉ reviews_indexes.*1 → indexes sch' !! n = indexes sch !! n) ∧
           (∀ c, c ∈ reviews_statement_columns → has_column sch' "reviews" c)) ∧
  (tables sch !! "review_sessions" = None →
   ∃ sch', MigrateReviewSessionsTable fl sch = (sch', None) ∧
           tables sch' =
             <["review_sessions" := review_sessions_table]> (tables sch) ∧
           (∀ ni, ni ∈ review_sessions_indexes → is_Some (indexes sch' !! ni.1)) ∧
           (∀ n, n ∉ review_sessions_indexes.*1 →
                 indexes sch' !! n = indexes sch !! n) ∧
           (∀ c, c ∈ review_sessions_statement_columns →
                 has_column sch' "review_sessions" c)) ∧
  (is_Some (tables sch !! "reviews") →
   tables (MigrateReviewsTable fl sch).1 = tables sch) ∧
  (is_Some (tables sch !! "review_sessions") →
   tables (MigrateReviewSessionsTable fl sch).1 = tables sch).
Proof.
  intros Hfl. split_and!.
  - intros Hnone.
    destruct (migrate_table_creates fl "reviews" reviews_table reviews_indexes sch)
      as (sch' & Hrun & Ht & Hall & Hother); [done | done | |].
    { unfold indexes_fit, reviews_indexes. repeat constructor; simpl;
        unfold column_names; simpl; set_solver. }
    exists sch'. split_and!; try done.
    intros c Hc. exists reviews_table. rewrite Ht, lookup_insert_eq.
    split; [done|]. revert Hc. unfold reviews_statement_columns, column_names.
    simpl. done.
  - intros Hnone.
    destruct (migrate_table_creates fl "review_sessions" review_sessions_table
                review_sessions_indexes sch)
      as (sch' & Hrun & Ht & Hall & Hother); [done | done | |].
    { unfold indexes_fit, review_sessions_indexes. repeat constructor; simpl;
        unfold column_names; simpl; set_solver. }
    exists sch'. split_and!; try done.
    intros c Hc. exists review_sessions_table. rewrite Ht, lookup_insert_eq.
    split; [done|]. revert Hc.
    unfold review_sessions_statement_columns, column_names. simpl. done.
  - apply migrate_table_keeps.
  - apply migrate_table_keeps.
Qed.

Lemma table_migrations_create_witness :
  (∀ site, no_ddl_faults site = None) ∧
  ∃ sch', MigrateReviewsTable no_ddl_faults bare_schema = (sch', None) ∧
          tables sch' = <["reviews" := reviews_table]> (tables bare_schema).
Proof.
  split; [done|].
  destruct (proj1 (table_migrations_create no_ddl_faults bare_schema
                     (λ _, eq_refl)))
    as (sch' & Hrun & Ht & _).
  - vm_compute. reflexivity.
  - exists sch'. split; [exact Hrun | exact Ht].
Defined.

Lemma filter_agree {A} (P Q : A → Prop)
    `{!∀ x, Decision (P x), !∀ x, Decision (Q x)} (l : list A) :
  (∀ x, x ∈ l → P x ↔ Q x) → filter P l = filter Q l.
Proof.
  induction l as [|a l IH]; intros HPQ; [done|].
  assert (filter P l = filter Q l) as Hl by (apply IH; intros; apply HPQ; by right).
  destruct (decide (P a)) as [HP|HP].
  - rewrite !filter_cons_True; [by rewrite Hl | by apply HPQ; [left|] | done].
  - rewrite !filter_cons_False; [done | | done].
    intros HQ. apply HP, HPQ; [left | done].
Qed.

Lemma add_missing_columns_all fl cols sch t :
  (∀ site, fl site = None) → NoDup (col_name <$> cols) →
  tables sch !! "issues" = Some t →
  add_missing_columns fl cols sch =
    (mkSchema
       (<["issues" := mkTable (tbl_columns t ++ missing_columns t cols)
                        (tbl_constraints t)]> (tables sch))
       (indexes sch),
     None).
Proof.
  intros Hfl. revert sch t.
  induction cols as [|col cols IH]; intros sch t Hnd Ht.
  - simpl. f_equal. unfold missing_columns. rewrite filter_nil, app_nil_r.
    destruct sch as [tbls idxs], t as [cs ks]. simpl in *. f_equal.
    symmetry. by apply insert_id.
  - rewrite fmap_cons in Hnd. apply NoDup_cons in Hnd as [Hcol Hnd].
    cbn [add_missing_columns]. unfold column_exists, add_column.
    rewrite !Hfl, Ht. unfold missing_columns. case_bool_decide as Hin.
    + rewrite filter_cons_False by (simpl; auto). by apply IH.
    + rewrite filter_cons_True by done.
      rewrite (IH _ (mkTable (tbl_columns t ++ [col]) (tbl_constraints t)));
        [|done|simpl; by rewrite lookup_insert_eq].
      simpl. rewrite insert_insert_eq, <- app_assoc. simpl.
      unfold missing_columns.
      assert (filter (λ c, col_name c ∉ column_names
                             (mkTable (tbl_columns t ++ [col]) (tbl_constraints t)))
                cols =
              filter (λ c, col_name c ∉ column_names t) cols) as ->; [|done].
      apply filter_agree.
      intros c Hc. unfold column_names. simpl. rewrite fmap_app. simpl.
      split; [set_solver|]. intros Hnot Hin'.
      apply elem_of_app in Hin' as [?|Heq%list_elem_of_singleton]; [done|].
      apply Hcol. rewrite <- Heq. by apply list_elem_of_fmap_2.
Qed.

Lemma create_index_ok fl name idx sch t :
  (∀ site, fl site = None) → tables sch !! idx_table idx = Some t →
  idx_column idx ∈ column_names t →
  ∃ sch', create_index_if_not_exists fl name idx sch = inr sch' ∧
          tables sch' = tables sch ∧ is_Some (indexes sch' !! name) ∧
          (∀ n, n ≠ name → indexes sch' !! n = indexes sch !! n).
Proof.
  intros Hfl Ht Hcol. unfold create_index_if_not_exists.
  rewrite Hfl, Ht, bool_decide_eq_true_2 by done.
  destruct (indexes sch !! name) as [old|] eqn:Hold; eexists;
    (split; [reflexivity|]); simpl; split_and!; eauto.
  - by rewrite lookup_insert_eq.
  - intros n Hn. by rewrite lookup_insert_ne.
Qed.

Lemma missing_columns_cover t cols col :
  col ∈ cols →
  col_name col ∈
    column_names (mkTable (tbl_columns t ++ missing_columns t cols)
                    (tbl_constraints t)).
Proof.
  intros Hcol. unfold column_names. simpl. rewrite fmap_app.
  destruct (decide (col_name col ∈ col_name <$> tbl_columns t)) as [Hin|Hout];
    apply elem_of_app; [by left|right].
  apply list_elem_of_fmap_2, list_elem_of_filter. done.
Qed.

(** X22.  Migration 019 on a schema with an [issues] table, without driver
    failures: it succeeds; the table keeps its columns and gets, after
    them and in the order review_status, reviewed_by, reviewed_at, those of
    the three it did not have, while a column it had under one of these
    names keeps its definition; the three columns then exist, and so do the
    two indexes. *)
Theorem MigrateReviewColumns_adds fl sch t :
  (∀ site, fl site = None) → tables sch !! "issues" = Some t →
  ∃ sch',
    MigrateReviewColumns fl sch = (sch', None) ∧
    tables sch' =
      <["issues" := mkTable (tbl_columns t ++ missing_columns t review_columns)
                      (tbl_constraints t)]> (tables sch) ∧
    (∀ c, c ∈ issues_review_statement_columns → has_column sch' "issues" c) ∧
    is_Some (indexes sch' !! "idx_issues_review_status") ∧
    is_Some (indexes sch' !! "idx_issues_reviewed_at") ∧
    (∀ n, n ≠ "idx_issues_review_status" → n ≠ "idx_issues_reviewed_at" →
          indexes sch' !! n = indexes sch !! n).
Proof.
  intros Hfl Ht. unfold MigrateReviewColumns.
  rewrite (add_missing_columns_all fl review_columns sch t Hfl); [|
    unfold review_columns; simpl; repeat constructor; set_solver | done].
  set (t' := mkTable (tbl_columns t ++ missing_columns t review_columns)
               (tbl_constraints t)).
  assert (∀ c, c ∈ issues_review_statement_columns → c ∈ column_names t') as Hcols.
  { intros c Hc.
    assert (c ∈ col_name <$> review_columns) as (col & -> & Hcol)%list_elem_of_fmap
      by exact Hc.
    by apply missing_columns_cover. }
  destruct (create_index_ok fl "idx_issues_review_status"
              idx_issues_review_status
              (mkSchema (<["issues" := t']> (tables sch)) (indexes sch)) t')
    as (s2 & -> & Ht2 & Hi2 & Ho2); [done | apply lookup_insert_eq | |].
  { apply Hcols. unfold issues_review_statement_columns. set_solver. }
  destruct (create_index_ok fl "idx_issues_reviewed_at" idx_issues_reviewed_at
              s2 t')
    as (s3 & -> & Ht3 & Hi3 & Ho3);
    [done | rewrite Ht2; apply lookup_insert_eq | |].
  { apply Hcols. unfold issues_review_statement_columns. set_solver. }
  exists s3. split_and!; [done | by rewrite Ht3, Ht2 | | | done |].
  - intros c Hc. exists t'. rewrite Ht3, Ht2. simpl.
    rewrite lookup_insert_eq. auto.
  - rewrite Ho3 by done. done.
  - intros n Hn1 Hn2. by rewrite Ho3, Ho2.
Qed.

Lemma MigrateReviewColumns_adds_witness :
  (∀ site, no_ddl_faults site = None) ∧
  ∃ sch',
    MigrateReviewColumns no_ddl_faults partial_schema = (sch', None) ∧
    column_names <$> tables sch' !! "issues" =
      Some ["id"; "reviewed_by"; "review_status"; "reviewed_at"] ∧
    (λ t, col_def <$> tbl_columns t !! 1%nat) <$> tables sch' !! "issues" =
      Some (Some "INTEGER").
Proof.
  split; [done|].
  destruct (MigrateReviewColumns_adds no_ddl_faults partial_schema
              (mkTable [mkColumn "id" "TEXT PRIMARY KEY";
                        mkColumn "reviewed_by" "INTEGER"] []))
    as (sch' & Hrun & Ht & _).
  - done.
  - vm_compute. reflexivity.
  - exists sch'. split; [exact Hrun|]. rewrite Ht. simpl.
    rewrite lookup_insert_eq. split; vm_compute; reflexivity.
Defined.

(** X23.  Migration 019 needs the [issues] table: on a schema without it the
    migration fails at the first column, whatever the driver does, and
    leaves the schema as it is. *)
Theorem MigrateReviewColumns_needs_issues fl sch :
  tables sch !! "issues" = None →
  ∃ d, MigrateReviewColumns fl sch = (sch, Some d) ∧
       ((∃ e, fl (CheckColumn "review_status") = Some e ∧
              d = "failed to check review_status column: " +:+ e) ∨
        (∃ e, fl (CheckColumn "review_status") = None ∧
              d = "failed to add review_status column: " +:+ e)).
Proof.
  intros Hnone. unfold MigrateReviewColumns, review_columns.
  cbn [add_missing_columns col_name]. unfold column_exists, add_column.
  cbn [col_name]. rewrite Hnone.
  destruct (fl (CheckColumn "review_status")) as [e|] eqn:Hc.
  - eexists. split; [reflexivity|]. left. eauto.
  - destruct (fl (AddColumn "review_status")) as [e|];
      (eexists; split; [reflexivity|]); right; eauto.
Qed.

Lemma MigrateReviewColumns_needs_issues_witness :
  tables empty_schema !! "issues" = None ∧
  ∃ d, MigrateReviewColumns no_ddl_faults empty_schema = (empty_schema, Some d).
Proof.
  assert (tables empty_schema !! "issues" = None) as Hnone by reflexivity.
  split; [exact Hnone|].
  destruct (MigrateReviewColumns_needs_issues no_ddl_faults empty_schema Hnone)
    as (d & Hrun & _).
  exists d. exact Hrun.
Defined.
